(** * deepchem/feat/smiles_tokenizer.py: a shallow embedding

    The definitions follow the Python module:
    - [Str]: the [str] methods the module calls ([join], [replace], [strip],
      [rstrip], [startswith]);
    - [Re]: the fragment of Python's [re] the pattern is written in: its
      syntax ([parse]), the backtracking order of the matcher ([ends]) and
      [findall];
    - [OrderedDict]: insertion-ordered dictionaries;
    - [Py]: list objects in a store, for the methods that build id lists;
    - the module's own constants, functions and classes, under their Python
      names.
    The properties come after the definitions, in the same order.

    A Python [str] is a sequence of code points; here it is a Rocq [string],
    whose characters are the code points below 256.  Python integers are [Z].
    What [transformers.BertTokenizer] provides (the special tokens, their
    ids, [max_len]) is a record the class takes as given. *)

From Stdlib Require Import ZArith Ascii String Sorted.
From stdpp Require Import base list strings.

Local Open Scope Z_scope.

(** ** Strings *)

Module Str.

Definition len (s : string) : nat := String.length s.

(** [s[:n]] for [0 <= n]. *)
Fixpoint take (n : nat) (s : string) : string :=
  match n, s with
  | S n', String c s' => String c (take n' s')
  | _, _ => ""
  end.

(** [sep.join(ls)] *)
Fixpoint join (sep : string) (ls : list string) : string :=
  match ls with
  | [] => ""
  | [x] => x
  | x :: xs => x +:+ sep +:+ join sep xs
  end.

(** [s.startswith(p)] *)
Fixpoint startswith (p s : string) : bool :=
  match p, s with
  | "", _ => true
  | String a p', String b s' => if Ascii.eqb a b then startswith p' s' else false
  | String _ _, "" => false
  end.

(** [s[n:]] for [0 <= n]. *)
Fixpoint drop (n : nat) (s : string) : string :=
  match n, s with
  | S n', String _ s' => drop n' s'
  | _, _ => s
  end.

(** [s.replace(old, new)]: the occurrences of [old] are found left to right
    and do not overlap; the search resumes after each replaced occurrence.
    With an empty [old], [new] is put before every character and at the
    end. *)
Fixpoint replace_scan (fuel : nat) (old new s : string) : string :=
  match fuel with
  | O => s
  | S fuel' =>
      match s with
      | "" => ""
      | String c s' =>
          if startswith old s
          then new +:+ replace_scan fuel' old new (drop (len old) s)
          else String c (replace_scan fuel' old new s')
      end
  end.

Fixpoint intersperse (new s : string) : string :=
  match s with
  | "" => new
  | String c s' => new +:+ String c (intersperse new s')
  end.

Definition replace (old new s : string) : string :=
  match old with
  | "" => intersperse new s
  | String _ _ => replace_scan (len s) old new s
  end.

(** [c.isspace()] on the code points below 256: TAB, LF, VT, FF, CR,
    FS, GS, RS, US, SPACE, NEL and NBSP. *)
Definition isspace (c : ascii) : bool :=
  let n := N_of_ascii c in
  ((9 <=? n) && (n <=? 13) || (28 <=? n) && (n <=? 32)
   || (n =? 133) || (n =? 160))%N.

Definition mem (c : ascii) (chars : string) : bool :=
  existsb (Ascii.eqb c) (list_ascii_of_string chars).

(** [s.lstrip(chars)] and [s.rstrip(chars)], by the predicate that says
    which characters go. *)
Fixpoint lstrip_by (p : ascii -> bool) (s : string) : string :=
  match s with
  | "" => ""
  | String c s' => if p c then lstrip_by p s' else s
  end.

Fixpoint rstrip_by (p : ascii -> bool) (s : string) : string :=
  match s with
  | "" => ""
  | String c s' =>
      match rstrip_by p s' with
      | "" => if p c then "" else String c ""
      | t => String c t
      end
  end.

(** [s.rstrip(chars)] *)
Definition rstrip (chars s : string) : string :=
  rstrip_by (fun c => mem c chars) s.

(** [s.strip()] *)
Definition strip (s : string) : string :=
  rstrip_by isspace (lstrip_by isspace s).

End Str.

Import Str.

(** ** Regular expressions

    The constructs the pattern uses, and the order in which Python's
    backtracking matcher explores them: the alternatives of [|] from left to
    right, the greedy quantifiers [?], [+] and [{n}] longest first. *)

Module Re.

Inductive regex : Type :=
| Lit (c : ascii)                                (* a literal or escaped character *)
| Class (neg : bool) (ranges : list (ascii * ascii))  (* [a-z], [^a-z] *)
| Cat (r1 r2 : regex)                            (* r1 r2 *)
| Alt (r1 r2 : regex)                            (* r1|r2 *)
| Opt (r : regex)                                (* r? *)
| Plus (r : regex)                               (* r+ *)
| Rep (n : nat) (r : regex)                      (* r{n} *)
| Group (r : regex).                             (* (r) *)

Definition in_ranges (c : ascii) (ranges : list (ascii * ascii)) : bool :=
  existsb (fun '(lo, hi) =>
             (N_of_ascii lo <=? N_of_ascii c)%N && (N_of_ascii c <=? N_of_ascii hi)%N)
          ranges.

(** One more round of [r+] from [s]: after a match of [r] either go round
    again (tried first: the quantifier is greedy) or stop. Every round of a
    body that consumes a character shortens the text, so [len s] rounds
    are all there can be. *)
Fixpoint plus_loop (step : string -> list string) (fuel : nat) (s : string)
  : list string :=
  match fuel with
  | O => []
  | S fuel' => s' ← step s; plus_loop step fuel' s' ++ [s']
  end.

(** [ends r s]: what is left of [s] after each way [r] can match at its
    start, in the order the matcher tries them. *)
Fixpoint ends (r : regex) (s : string) : list string :=
  match r with
  | Lit c =>
      match s with
      | String c' s' => if Ascii.eqb c c' then [s'] else []
      | "" => []
      end
  | Class neg ranges =>
      match s with
      | String c s' => if xorb neg (in_ranges c ranges) then [s'] else []
      | "" => []
      end
  | Cat r1 r2 => s' ← ends r1 s; ends r2 s'
  | Alt r1 r2 => ends r1 s ++ ends r2 s
  | Opt r => ends r s ++ [s]
  | Plus r => plus_loop (ends r) (len s) s
  | Rep n r =>
      (fix rep (n : nat) (s : string) : list string :=
         match n with
         | O => [s]
         | S n' => s' ← ends r s; rep n' s'
         end) n s
  | Group r => ends r s
  end.

(** The match the engine reports at the start of [s]: the first one found. *)
Definition match_at (r : regex) (s : string) : option string :=
  head (ends r s).

(** [re.finditer]: scan left to right; a match is taken and the scan
    resumes where it ended, a position with no match is skipped. After an
    empty match the scan moves one character on. *)
Fixpoint scan (fuel : nat) (r : regex) (s : string) : list string :=
  match fuel with
  | O => []
  | S fuel' =>
      match match_at r s with
      | Some rest =>
          take (len s - len rest) s ::
            (if decide (len rest < len s)%nat
             then scan fuel' r rest
             else match s with "" => [] | String _ s' => scan fuel' r s' end)
      | None =>
          match s with "" => [] | String _ s' => scan fuel' r s' end
      end
  end.

(** [re.compile(r).findall(s)] for a pattern whose single group encloses
    the whole pattern and that matches no empty text, as the tokenizer
    pattern is: the list of the matched substrings. With other groups
    Python lists the texts of the groups, which this does not follow. *)
Definition findall (r : regex) (s : string) : list string :=
  scan (S (len s)) r s.

(** [r1|r2|...|rn] *)
Fixpoint alts (r : regex) (rs : list regex) : regex :=
  match rs with
  | [] => r
  | r' :: rs' => Alt r (alts r' rs')
  end.

(** *** The pattern syntax

    [parse] reads the text of a pattern of this fragment: groups, [|],
    classes with ranges and [^], the quantifiers [?], [+] and [{n}],
    characters escaped by a backslash, and everything else as itself. Text
    outside the fragment gives [None]. *)

Definition is_alnum (c : ascii) : bool :=
  in_ranges c [("0", "9"); ("a", "z"); ("A", "Z")]%char.

Definition class_char (s : string) : option (ascii * string) :=
  match s with
  | String "\" (String c rest) => if is_alnum c then None else Some (c, rest)
  | String "]" _ => None
  | String c rest => Some (c, rest)
  | "" => None
  end.

Fixpoint class_items (fuel : nat) (s : string) : option (list (ascii * ascii) * string) :=
  match fuel with
  | O => None
  | S fuel' =>
      match s with
      | String "]" rest => Some ([], rest)
      | _ =>
          '(lo, r1) ← class_char s;
          match r1 with
          | String "-" r2 =>
              match class_char r2 with
              | Some (hi, r3) =>
                  '(items, rest) ← class_items fuel' r3;
                  Some ((lo, hi) :: items, rest)
              | None =>
                  '(items, rest) ← class_items fuel' r1;
                  Some ((lo, lo) :: items, rest)
              end
          | _ =>
              '(items, rest) ← class_items fuel' r1;
              Some ((lo, lo) :: items, rest)
          end
      end
  end.

Fixpoint count_digits (acc : nat) (s : string) : nat * string :=
  match s with
  | String c rest =>
      if in_ranges c [("0", "9")]%char
      then count_digits (10 * acc + (nat_of_ascii c - 48)) rest
      else (acc, s)
  | "" => (acc, s)
  end.

Definition is_quantifier (c : ascii) : bool :=
  mem c "?+*{".

Definition is_special (c : ascii) : bool :=
  mem c ".^$*+?{}|)".

Fixpoint parse_alt (fuel : nat) (s : string) : option (regex * string) :=
  match fuel with
  | O => None
  | S fuel' =>
      '(a, rest) ← parse_seq fuel' s;
      match rest with
      | String "|" rest' =>
          '(b, rest'') ← parse_alt fuel' rest';
          Some (Alt a b, rest'')
      | _ => Some (a, rest)
      end
  end
with parse_seq (fuel : nat) (s : string) : option (regex * string) :=
  match fuel with
  | O => None
  | S fuel' =>
      '(p, rest) ← parse_piece fuel' s;
      match rest with
      | "" => Some (p, rest)
      | String c _ =>
          if mem c "|)" then Some (p, rest)
          else '(q, rest') ← parse_seq fuel' rest; Some (Cat p q, rest')
      end
  end
with parse_piece (fuel : nat) (s : string) : option (regex * string) :=
  match fuel with
  | O => None
  | S fuel' =>
      '(a, rest) ← parse_atom fuel' s;
      '(p, rest') ←
        match rest with
        | String "?" r => Some (Opt a, r)
        | String "+" r => Some (Plus a, r)
        | String "*" _ => None
        | String "{" r =>
            match count_digits 0 r with
            | (n, String "}" r') => Some (Rep n a, r')
            | _ => None
            end
        | _ => Some (a, rest)
        end;
      match rest' with
      | String c _ =>
          if is_quantifier c && negb (String.eqb rest rest') then None
          else Some (p, rest')
      | "" => Some (p, rest')
      end
  end
with parse_atom (fuel : nat) (s : string) : option (regex * string) :=
  match fuel with
  | O => None
  | S fuel' =>
      match s with
      | String "(" (String "?" _) => None
      | String "(" rest =>
          '(r, rest') ← parse_alt fuel' rest;
          match rest' with
          | String ")" rest'' => Some (Group r, rest'')
          | _ => None
          end
      | String "[" (String "^" rest) =>
          '(items, rest') ← class_items fuel' rest; Some (Class true items, rest')
      | String "[" rest =>
          '(items, rest') ← class_items fuel' rest; Some (Class false items, rest')
      | String "\" (String c rest) =>
          if is_alnum c then None else Some (Lit c, rest)
      | String c rest => if is_special c then None else Some (Lit c, rest)
      | "" => None
      end
  end.

Definition parse (pattern : string) : option regex :=
  match parse_alt (4 * len pattern + 4) pattern with
  | Some (r, "") => Some r
  | _ => None
  end.

(** [s'] is what is left of [s] after some prefix. *)
Definition rest_of (s s' : string) : Prop := exists tok, s = tok +:+ s'.

End Re.

Import Re.

(** ** The tokenizer pattern (lines 29-30)

    The pattern is a raw triple-quoted literal that runs over two source
    lines and is compiled without [re.VERBOSE]: the line break between [=|]
    and [#|] is part of the pattern, so the alternative after [=] is a
    newline followed by [#]. *)

Definition SMI_REGEX_PATTERN : string :=
  "(\[[^\]]+]|Br?|Cl?|N|O|S|P|F|I|b|c|n|o|s|p|\(|\)|\.|=|
#|-|\+|\\|\/|:|~|@|\?|>>?|\*|\$|\%[0-9]{2}|[0-9])".

Definition LF : ascii := "010"%char.
Definition digit : regex := Class false [("0", "9")]%char.

(** The pattern in parsed form. *)
Definition SMI_REGEX : regex :=
  Group (alts
    (Cat (Lit "[") (Cat (Plus (Class true [("]", "]")])) (Lit "]")))  (* \[[^\]]+] *)
    [ Cat (Lit "B") (Opt (Lit "r"));                                  (* Br? *)
      Cat (Lit "C") (Opt (Lit "l"));                                  (* Cl? *)
      Lit "N"; Lit "O"; Lit "S"; Lit "P"; Lit "F"; Lit "I";
      Lit "b"; Lit "c"; Lit "n"; Lit "o"; Lit "s"; Lit "p";
      Lit "("; Lit ")"; Lit "."; Lit "=";
      Cat (Lit LF) (Lit "#");                                         (* <newline># *)
      Lit "-"; Lit "+"; Lit "\"; Lit "/"; Lit ":"; Lit "~"; Lit "@"; Lit "?";
      Cat (Lit ">") (Opt (Lit ">"));                                  (* >>? *)
      Lit "*"; Lit "$";
      Cat (Lit "%") (Rep 2 digit);                                    (* \%[0-9]{2} *)
      digit ])%char.                                                  (* [0-9] *)

(** ** Exceptions *)

Inductive exn : Type :=
| ValueError (msg : string)
| FileNotFoundError (path : string)
| re_error (pattern : string).

(** [re.compile] on the patterns of the fragment [parse] reads, the
    tokenizer pattern among them. Any other text is refused here, also
    where Python compiles it: of such a pattern the model says nothing. *)
Definition re_compile (pattern : string) : exn + regex :=
  match parse pattern with
  | Some r => inr r
  | None => inl (re_error pattern)
  end.

(** ** class BasicSmilesTokenizer *)

Module BasicSmilesTokenizer.

Record t := { regex_pattern : string; regex : regex }.

Definition __init__ (regex_pattern : string) : exn + t :=
  match re_compile regex_pattern with
  | inl e => inl e
  | inr regex => inr {| regex_pattern := regex_pattern; regex := regex |}
  end.

(** [BasicSmilesTokenizer()], with the default pattern. *)
Definition default : t :=
  {| regex_pattern := SMI_REGEX_PATTERN; regex := SMI_REGEX |}.

Definition tokenize (self : t) (text : string) : list string :=
  findall (regex self) text.

End BasicSmilesTokenizer.

(** ** Insertion-ordered dictionaries ([collections.OrderedDict]) *)

Module OrderedDict.
Section ordered_dict.
Context {K V : Type} `{EqDecision K}.

(** The items in insertion order; a key occurs once. *)
Definition t : Type := list (K * V).

Definition empty : t := [].

(** [d.get(k)]: the value, or [None]. *)
Fixpoint get (d : t) (k : K) : option V :=
  match d with
  | [] => None
  | (k', v') :: d' => if decide (k' = k) then Some v' else get d' k
  end.

(** [d[k] = v]: a key already there keeps its place and takes the new
    value, a new key goes to the end. *)
Fixpoint set (d : t) (k : K) (v : V) : t :=
  match d with
  | [] => [(k, v)]
  | (k', v') :: d' =>
      if decide (k' = k) then (k', v) :: d' else (k', v') :: set d' k v
  end.

Definition keys (d : t) : list K := d.*1.
Definition values (d : t) : list V := d.*2.
Definition items (d : t) : list (K * V) := d.
Definition size (d : t) : nat := length d.

(** [OrderedDict(pairs)] *)
Definition of_list (pairs : list (K * V)) : t :=
  foldl (fun d kv => set d kv.1 kv.2) empty pairs.
End ordered_dict.
Global Arguments t : clear implicits.
End OrderedDict.

(** ** List objects

    The id lists the methods take and return are mutable objects; the store
    holds their contents, a reference is the allocation index. [a + b] and
    [a * n] read their operands and allocate the result. *)

Module Py.

Abbreviation ref := nat.
Abbreviation store := (list (list Z)).

(** A run from a store: the result and the store it leaves, or [None] where
    the run raises. *)
Definition M (A : Type) : Type := store -> option (A * store).

Global Instance M_ret : MRet M := fun A x h => Some (x, h).
Global Instance M_bind : MBind M := fun A B f m h =>
  match m h with
  | Some (x, h') => f x h'
  | None => None
  end.

(** A list display [[x, y, ...]]. *)
Definition new_list (l : list Z) : M ref :=
  fun h => Some (length h, h ++ [l]).

Definition deref (r : ref) : M (list Z) :=
  fun h => match h !! r with Some l => Some (l, h) | None => None end.

(** [len(a)] *)
Definition list_len (a : ref) : M Z :=
  la ← deref a; mret (Z.of_nat (length la)).

(** [a + b] *)
Definition list_add (a b : ref) : M ref :=
  la ← deref a; lb ← deref b; new_list (la ++ lb).

(** The least index ([Py_ssize_t]) of a 64-bit build, -2^63. *)
Definition PY_SSIZE_T_MIN : Z := -9223372036854775808.

(** "OverflowError: cannot fit 'int' into an index-sized integer" *)
Definition OverflowError {A : Type} : M A := fun _ => None.

(** [a * n]: the count is taken as an index first, and one below
    [PY_SSIZE_T_MIN] raises OverflowError; then [n] copies of [a] one after
    the other, none when [n <= 0]. Lists are as long as the count asks for:
    memory has no end here, so neither has the index above. *)
Definition list_mul (a : ref) (n : Z) : M ref :=
  la ← deref a;
  if decide (n < PY_SSIZE_T_MIN) then OverflowError
  else new_list (mjoin (replicate (Z.to_nat n) la)).

(** [old h h']: every object of [h] is in [h'], with the contents it had. *)
Definition old (h h' : store) : Prop :=
  forall r l, h !! r = Some l -> h' !! r = Some l.

(** [wp m h Q]: from [h], [m] returns, leaves the objects of [h] as they
    were, and its result and final store satisfy [Q]. *)
Definition wp {A : Type} (m : M A) (h : store) (Q : A -> store -> Prop) : Prop :=
  exists x h', m h = Some (x, h') /\ old h h' /\ Q x h'.

End Py.

(** The same for lists of any elements: the token lists are lists of
    strings. *)

Module PyList.

Definition M (A B : Type) : Type := list (list A) -> option (B * list (list A)).

Definition bind {A B C : Type} (m : M A B) (f : B -> M A C) : M A C :=
  fun h =>
    match m h with
    | Some (x, h') => f x h'
    | None => None
    end.

Definition new_list {A : Type} (l : list A) : M A nat :=
  fun h => Some (length h, h ++ [l]).

Definition deref {A : Type} (r : nat) : M A (list A) :=
  fun h => match h !! r with Some l => Some (l, h) | None => None end.

(** [a + b] *)
Definition list_add {A : Type} (a b : nat) : M A nat :=
  bind (deref a) (fun la => bind (deref b) (fun lb => new_list (la ++ lb))).

End PyList.

(** ** Files *)

(** The regular files, by path, with their decoded text. *)
Definition filesystem : Type := string -> option string.

(** [os.path.isfile] *)
Definition isfile (fs : filesystem) (path : string) : bool :=
  bool_decide (is_Some (fs path)).

Definition CR : ascii := "013"%char.

(** Text mode with the default [newline=None]: a CR LF pair and a lone CR
    are read as LF. *)
Fixpoint universal_newlines (s : string) : string :=
  match s with
  | "" => ""
  | String c s' =>
      if Ascii.eqb c CR
      then String LF
             match s' with
             | String c' s'' =>
                 if Ascii.eqb c' LF then universal_newlines s''
                 else universal_newlines s'
             | "" => ""
             end
      else String c (universal_newlines s')
  end.

(** The lines of a text, each with its line end. *)
Fixpoint split_keepends (s : string) : list string :=
  match s with
  | "" => []
  | String c s' =>
      if Ascii.eqb c LF then String c "" :: split_keepends s'
      else match split_keepends s' with
           | [] => [String c ""]
           | l :: ls => String c l :: ls
           end
  end.

(** [reader.readlines()] *)
Definition readlines (content : string) : list string :=
  split_keepends (universal_newlines content).

(** [enumerate(l, start)] *)
Fixpoint enumerate_from {A : Type} (start : Z) (l : list A) : list (Z * A) :=
  match l with
  | [] => []
  | x :: l' => (start, x) :: enumerate_from (start + 1) l'
  end.

Definition enumerate {A : Type} (l : list A) : list (Z * A) := enumerate_from 0 l.

(** [max(l)]; on an empty list it raises [ValueError]. *)
Definition max (l : list Z) : exn + Z :=
  match l with
  | [] => inl (ValueError "max() arg is an empty sequence")
  | x :: l' => inr (foldl Z.max x l')
  end.

(** ** What [save_vocabulary] works on

    The file system with its directories, the paths [open(path, "w")] can
    open, and the warnings the logger has taken. Files are written as on a
    POSIX system: a line feed is written as it is. *)

Record os_state : Type := {
  os_files : filesystem;
  os_isdir : string -> bool;
  os_can_open : string -> bool;
  os_log : list string
}.

Inductive os_error : Type :=
| OSError (path : string)
| KeyError (key : string).

(** [s.endswith(suffix)] *)
Fixpoint endswith (suffix s : string) : bool :=
  String.eqb suffix s
  || match s with
     | "" => false
     | String _ s' => endswith suffix s'
     end.

(** [os.path.join(a, b)] *)
Definition path_join (a b : string) : string :=
  if startswith "/" b then b
  else if String.eqb a "" || endswith "/" a then a +:+ b
  else a +:+ "/" +:+ b.

(** Line 33. *)
Definition VOCAB_FILES_NAMES : OrderedDict.t string string :=
  [("vocab_file", "vocab.txt")].

(** [sorted(items, key=lambda kv: kv[1])]: ascending in the value, items of
    equal value in the order they had. *)
Fixpoint insert_by_value (x : string * Z) (l : list (string * Z)) : list (string * Z) :=
  match l with
  | [] => [x]
  | y :: l' => if x.2 <=? y.2 then x :: y :: l' else y :: insert_by_value x l'
  end.

Definition sorted_by_value (l : list (string * Z)) : list (string * Z) :=
  foldr insert_by_value [] l.

(** ** load_vocab (lines 333-341) *)

(** The string of one line feed. *)
Definition NL : string := String LF "".

(** The loop over the numbered lines. *)
Definition vocab_of_lines (tokens : list string) : OrderedDict.t string Z :=
  foldl (fun vocab '(index, token) =>
           let token := rstrip NL token in
           OrderedDict.set vocab token index)
        OrderedDict.empty (enumerate tokens).

(** The entry a numbered line makes. *)
Definition entry (it : Z * string) : string * Z := (rstrip NL it.2, it.1).

(** The index of the last line that reads [tok]. *)
Fixpoint last_line (tok : string) (tokens : list string) : option nat :=
  match tokens with
  | [] => None
  | token :: tokens' =>
      match last_line tok tokens' with
      | Some j => Some (S j)
      | None => if decide (rstrip NL token = tok) then Some O else None
      end
  end.

Definition load_vocab (fs : filesystem) (vocab_file : string)
  : exn + OrderedDict.t string Z :=
  match fs vocab_file with
  | None => inl (FileNotFoundError vocab_file)
  | Some content =>
      let tokens := readlines content in
      inr (vocab_of_lines tokens)
  end.

(** ** class SmilesTokenizer *)

(** What the class inherits from [transformers.BertTokenizer] and reads:
    the special tokens and their ids, and [max_len]. *)
Record BertTokenizer : Type := {
  unk_token : string;
  sep_token : string;
  pad_token : string;
  cls_token : string;
  mask_token : string;
  max_len : Z;
  cls_token_id : Z;
  sep_token_id : Z;
  pad_token_id : Z
}.

Module SmilesTokenizer.

Record t : Type := {
  super : BertTokenizer;
  max_len_single_sentence : Z;
  max_len_sentences_pair : Z;
  vocab : OrderedDict.t string Z;
  highest_unused_index : Z;
  ids_to_tokens : OrderedDict.t Z string;
  basic_tokenizer : BasicSmilesTokenizer.t;
  init_kwargs_max_len : Z
}.

(** [[i for i, v in enumerate(vocab.keys()) if v.startswith("[unused")]] *)
Definition unused_indices (vocab : OrderedDict.t string Z) : list Z :=
  (List.filter (fun iv => startswith "[unused" iv.2)
               (enumerate (OrderedDict.keys vocab))).*1.

(** [[(ids, tok) for tok, ids in vocab.items()]] *)
Definition swapped_items (vocab : OrderedDict.t string Z) : list (Z * string) :=
  (fun kv => (kv.2, kv.1)) <$> OrderedDict.items vocab.

(** Lines 95-108, run once [super().__init__] (line 94) has returned;
    [super_] is the object as that call leaves it. The call is
    [BertTokenizer]'s and raises by itself where the vocabulary file is
    missing, before line 99 is reached. *)
Definition __init__ (fs : filesystem) (super_ : BertTokenizer) (vocab_file : string)
  : exn + t :=
  if negb (isfile fs vocab_file)
  then inl (ValueError ("Can't find a vocab file at path '" +:+ vocab_file +:+ "'."))
  else
    match load_vocab fs vocab_file with
    | inl e => inl e
    | inr vocab =>
        match max (unused_indices vocab) with
        | inl e => inl e
        | inr highest =>
            let ids_to_tokens := OrderedDict.of_list (swapped_items vocab) in
            match BasicSmilesTokenizer.__init__ SMI_REGEX_PATTERN with
            | inl e => inl e
            | inr basic_tokenizer =>
                inr {| super := super_;
                       max_len_single_sentence := max_len super_ - 2;
                       max_len_sentences_pair := max_len super_ - 3;
                       vocab := vocab;
                       highest_unused_index := highest;
                       ids_to_tokens := ids_to_tokens;
                       basic_tokenizer := basic_tokenizer;
                       init_kwargs_max_len := max_len super_ |}
            end
        end
    end.

Definition vocab_size (self : t) : nat := OrderedDict.size (vocab self).

Definition vocab_list (self : t) : list string := OrderedDict.keys (vocab self).

Definition _tokenize (self : t) (text : string) : list string :=
  BasicSmilesTokenizer.tokenize (basic_tokenizer self) text.

(** [self.vocab.get(token, self.vocab.get(self.unk_token))]; the result is
    [None] when neither key is there. *)
Definition _convert_token_to_id (self : t) (token : string) : option Z :=
  let default := OrderedDict.get (vocab self) (unk_token (super self)) in
  match OrderedDict.get (vocab self) token with
  | Some index => Some index
  | None => default
  end.

(** [self.ids_to_tokens.get(index, self.unk_token)] *)
Definition _convert_id_to_token (self : t) (index : Z) : string :=
  match OrderedDict.get (ids_to_tokens self) index with
  | Some token => token
  | None => unk_token (super self)
  end.

Definition convert_tokens_to_string (self : t) (tokens : list string) : string :=
  strip (replace " ##" "" (join " " tokens)).

Import Py.

(** [[self.cls_token_id] + token_ids + [self.sep_token_id]] *)
Definition add_special_tokens_ids_single_sequence (self : t) (token_ids : ref)
  : M ref :=
  a ← new_list [cls_token_id (super self)];
  b ← list_add a token_ids;
  c ← new_list [sep_token_id (super self)];
  list_add b c.

(** [[self.cls_token] + tokens + [self.sep_token]] *)
Definition add_special_tokens_single_sequence (self : t) (tokens : nat)
  : PyList.M string nat :=
  PyList.bind (PyList.new_list [cls_token (super self)]) (fun a =>
  PyList.bind (PyList.list_add a tokens) (fun b =>
  PyList.bind (PyList.new_list [sep_token (super self)]) (fun c =>
  PyList.list_add b c))).

Definition add_special_tokens_ids_sequence_pair (self : t)
    (token_ids_0 token_ids_1 : ref) : M ref :=
  sep ← new_list [sep_token_id (super self)];
  cls ← new_list [cls_token_id (super self)];
  a ← list_add cls token_ids_0;
  b ← list_add a sep;
  c ← list_add b token_ids_1;
  list_add c sep.

Definition add_padding_tokens (self : t) (token_ids : ref) (length : Z)
    (right : bool) : M ref :=
  a ← new_list [pad_token_id (super self)];
  n ← list_len token_ids;
  padding ← list_mul a (length - n);
  if right then list_add token_ids padding
  else list_add padding token_ids.

(** The warning of line 281. *)
Definition not_consecutive (vocab_file : string) : string :=
  "Saving vocabulary to " +:+ vocab_file
  +:+ ": vocabulary indices are not consecutive."
  +:+ " Please check that the vocabulary is not corrupted!".

(** One round of the loop of lines 278-287, on the index expected, the text
    written so far and the log. *)
Definition save_step (vocab_file : string) (st : Z * string * list string)
    (item : string * Z) : Z * string * list string :=
  let '(index, written, log) := st in
  let '(token, token_index) := item in
  let '(index, log) :=
    if decide (index <> token_index)
    then (token_index, log ++ [not_consecutive vocab_file])
    else (index, log) in
  (index + 1, written +:+ token +:+ NL, log).

(** Lines 272-288; the result is the only component of the tuple. *)
Definition save_vocabulary (self : t) (vocab_path : string) (os : os_state)
  : os_error + (string * os_state) :=
  let index := 0 in
  match
    (if os_isdir os vocab_path
     then match OrderedDict.get VOCAB_FILES_NAMES "vocab_file" with
          | Some name => inr (path_join vocab_path name)
          | None => inl (KeyError "vocab_file")
          end
     else inr vocab_path)
  with
  | inl e => inl e
  | inr vocab_file =>
      if os_can_open os vocab_file
      then
        let '(_, written, log) :=
          foldl (save_step vocab_file) (index, "", os_log os)
                (sorted_by_value (OrderedDict.items (vocab self))) in
        inr (vocab_file,
             {| os_files := fun path =>
                  if String.eqb path vocab_file then Some written
                  else os_files os path;
                os_isdir := os_isdir os;
                os_can_open := os_can_open os;
                os_log := log |})
      else inl (OSError vocab_file)
  end.

End SmilesTokenizer.

(** ** The lexemes of the pattern

    The strings the alternatives of the compiled pattern match, one clause
    per kind: a bracket atom, the fixed strings, a ring bond of two digits
    after [%], a digit. Among the fixed strings [#] only comes with the
    line break before it. *)

Definition fixed_lexemes : list string :=
  ["Br"; "B"; "Cl"; "C"; "N"; "O"; "S"; "P"; "F"; "I";
   "b"; "c"; "n"; "o"; "s"; "p"; "("; ")"; "."; "="; String LF "#";
   "-"; "+"; "\"; "/"; ":"; "~"; "@"; "?"; ">>"; ">"; "*"; "$"].

Definition isdigit (c : ascii) : bool := in_ranges c [("0", "9")]%char.

Definition not_close (c : ascii) : bool := negb (Ascii.eqb c "]").

Fixpoint no_close (s : string) : bool :=
  match s with
  | "" => true
  | String c s' => not_close c && no_close s'
  end.

Inductive lexeme : string -> Prop :=
| lexeme_bracket c body :
    not_close c = true -> no_close body = true ->
    lexeme (String "[" (String c (body +:+ "]")))
| lexeme_fixed l : l ∈ fixed_lexemes -> lexeme l
| lexeme_ring d1 d2 :
    isdigit d1 = true -> isdigit d2 = true ->
    lexeme (String "%" (String d1 (String d2 "")))
| lexeme_digit d : isdigit d = true -> lexeme (String d "").

(** A text that is lexemes one after the other. *)
Inductive covered : string -> Prop :=
| covered_nil : covered ""
| covered_cons l s : lexeme l -> covered s -> covered (l +:+ s).

(** ** The steps of [convert_tokens_to_string], in the words of the
    specification *)

Inductive joined_by (sep : string) : list string -> string -> Prop :=
| joined_nil : joined_by sep [] ""
| joined_one t : joined_by sep [t] t
| joined_more t ts s :
    ts <> [] -> joined_by sep ts s -> joined_by sep (t :: ts) (t +:+ sep +:+ s).

(** Every occurrence of [old], found from the left, is left out. *)
Inductive removed (old : string) : string -> string -> Prop :=
| removed_end : removed old "" ""
| removed_hit s s' : removed old s s' -> removed old (old +:+ s) s'
| removed_keep c s s' :
    startswith old (String c s) = false ->
    removed old s s' -> removed old (String c s) (String c s').

Fixpoint all_of (p : ascii -> bool) (s : string) : bool :=
  match s with
  | "" => true
  | String c s' => p c && all_of p s'
  end.

(** [t] is [s] without the whitespace at its two ends. *)
Definition trimmed (s t : string) : Prop :=
  (exists l r, s = l +:+ t +:+ r
               /\ all_of isspace l = true /\ all_of isspace r = true)
  /\ (forall c t', t = String c t' -> isspace c = false)
  /\ (forall c t', t = t' +:+ String c "" -> isspace c = false).

(** ** A small vocabulary

    A vocabulary file in the layout of a BERT vocabulary, in which [CLS],
    [SEP], C, (, ) and O have the ids they have in the [encode] example of
    the class docstring. *)

Definition example_lines : list string :=
  ["[PAD]"; "[unused1]"; "[unused2]"; "[unused3]"; "[unused4]"; "[unused5]";
   "[unused6]"; "[unused7]"; "[unused8]"; "[unused9]"; "[unused10]"; "[UNK]";
   "[CLS]"; "[SEP]"; "[MASK]"; "c"; "C"; "("; ")"; "O"].

Definition example_file : string := join NL example_lines +:+ NL.

Definition example_fs : filesystem :=
  fun path => if String.eqb path "vocab.txt" then Some example_file else None.

Definition example_super : BertTokenizer :=
  {| unk_token := "[UNK]"; sep_token := "[SEP]"; pad_token := "[PAD]";
     cls_token := "[CLS]"; mask_token := "[MASK]"; max_len := 512;
     cls_token_id := 12; sep_token_id := 13; pad_token_id := 0 |}.

Definition example_vocab : OrderedDict.t string Z :=
  [("[PAD]", 0); ("[unused1]", 1); ("[unused2]", 2); ("[unused3]", 3);
   ("[unused4]", 4); ("[unused5]", 5); ("[unused6]", 6); ("[unused7]", 7);
   ("[unused8]", 8); ("[unused9]", 9); ("[unused10]", 10); ("[UNK]", 11);
   ("[CLS]", 12); ("[SEP]", 13); ("[MASK]", 14); ("c", 15); ("C", 16);
   ("(", 17); (")", 18); ("O", 19)].

Definition example_self : SmilesTokenizer.t :=
  {| SmilesTokenizer.super := example_super;
     SmilesTokenizer.max_len_single_sentence := 510;
     SmilesTokenizer.max_len_sentences_pair := 509;
     SmilesTokenizer.vocab := example_vocab;
     SmilesTokenizer.highest_unused_index := 10;
     SmilesTokenizer.ids_to_tokens := (fun kv => (kv.2, kv.1)) <$> example_vocab;
     SmilesTokenizer.basic_tokenizer := BasicSmilesTokenizer.default;
     SmilesTokenizer.init_kwargs_max_len := 512 |}.

(** A vocabulary file without [[unused...]] tokens. *)
Definition bare_fs : filesystem :=
  fun _ => Some ("C" +:+ NL +:+ "O" +:+ NL).

(** A vocabulary file with the same line twice. *)
Definition twice_fs : filesystem :=
  fun _ => Some ("C" +:+ NL +:+ "C" +:+ NL).

(** ** What a pattern matches

    [matches r tok]: the text [tok], as a whole, is a match of [r]. *)

Inductive matches : regex -> string -> Prop :=
| matches_lit c : matches (Lit c) (String c "")
| matches_class neg ranges c :
    xorb neg (in_ranges c ranges) = true -> matches (Class neg ranges) (String c "")
| matches_cat r1 r2 t1 t2 :
    matches r1 t1 -> matches r2 t2 -> matches (Cat r1 r2) (t1 +:+ t2)
| matches_alt_l r1 r2 t : matches r1 t -> matches (Alt r1 r2) t
| matches_alt_r r1 r2 t : matches r2 t -> matches (Alt r1 r2) t
| matches_opt_none r : matches (Opt r) ""
| matches_opt_some r t : matches r t -> matches (Opt r) t
| matches_plus_one r t : matches r t -> matches (Plus r) t
| matches_plus_more r t1 t2 :
    matches r t1 -> matches (Plus r) t2 -> matches (Plus r) (t1 +:+ t2)
| matches_rep_O r : matches (Rep O r) ""
| matches_rep_S n r t1 t2 :
    matches r t1 -> matches (Rep n r) t2 -> matches (Rep (S n) r) (t1 +:+ t2)
| matches_group r t : matches r t -> matches (Group r) t.

(** [scattered toks s]: the texts [toks] lie in [s] in this order, one after
    the other without overlap, with any characters before, between and after
    them. *)
Inductive scattered : list string -> string -> Prop :=
| scattered_nil s : scattered [] s
| scattered_skip c toks s : scattered toks s -> scattered toks (String c s)
| scattered_tok tok toks s : scattered toks s -> scattered (tok :: toks) (tok +:+ s).

(** ** Lines and tokens *)

(** The texts of [l] that are not in [seen], each once, in the order of their
    first occurrence. *)
Fixpoint first_seen (seen l : list string) : list string :=
  match l with
  | [] => []
  | x :: l' =>
      if decide (x ∈ seen) then first_seen seen l'
      else x :: first_seen (seen ++ [x]) l'
  end.

(** ** Runs over lists of any elements *)

Module PyListSpec.
Import PyList.

Definition old {A : Type} (h h' : list (list A)) : Prop :=
  forall r l, h !! r = Some l -> h' !! r = Some l.

Definition wp {A B : Type} (m : M A B) (h : list (list A))
    (Q : B -> list (list A) -> Prop) : Prop :=
  exists x h', m h = Some (x, h') /\ old h h' /\ Q x h'.

End PyListSpec.

(** ** The text of a file of lines *)

(** The tokens, each followed by a line feed. *)
Fixpoint lines_text (toks : list string) : string :=
  match toks with
  | [] => ""
  | tok :: toks' => tok +:+ NL +:+ lines_text toks'
  end.

(** Items in ascending order of their ids. *)
Definition by_value (a b : string * Z) : Prop := a.2 <= b.2.

(** The vocabulary that numbers the tokens from 0 in their order. *)
Definition numbered (toks : list string) : OrderedDict.t string Z :=
  (fun it : Z * string => (it.2, it.1)) <$> enumerate toks.

(** ** A system to save to

    The example file system with a directory [out]; every path can be
    opened for writing, nothing is logged yet. *)
Definition example_os : os_state :=
  {| os_files := example_fs;
     os_isdir := fun path => String.eqb path "out";
     os_can_open := fun _ => true;
     os_log := [] |}.

(** The file [save_vocabulary] writes: in the directory, or the path itself. *)
Definition saved_file (os : os_state) (vocab_path : string) : string :=
  if os_isdir os vocab_path then path_join vocab_path "vocab.txt" else vocab_path.

(** The system [save_vocabulary] leaves, where it returns. *)
Definition os_after_save (self : SmilesTokenizer.t) (vocab_path : string)
    (os : os_state) : os_state :=
  match SmilesTokenizer.save_vocabulary self vocab_path os with
  | inr (_, os') => os'
  | inl _ => os
  end.

(** ** Word pieces

    What a token after the first adds to the string: a token marked with
    [##] goes on without the mark and without a space, any other token
    after a space. *)
Definition glued (tok : string) : string :=
  if startswith "##" tok then drop 2 tok else " " +:+ tok.

(** No character of the text is whitespace. *)
Definition no_space (s : string) : bool := all_of (fun c => negb (isspace c)) s.

(** * Properties *)

(** ** Strings *)

Module StrFacts.

Lemma app_nil_l s : "" +:+ s = s.
Proof. reflexivity. Qed.

Lemma app_cons c s1 s2 : String c s1 +:+ s2 = String c (s1 +:+ s2).
Proof. reflexivity. Qed.

Lemma app_nil_r s : s +:+ "" = s.
Proof. induction s as [|c s IH]; [done | by rewrite app_cons, IH]. Qed.

Lemma app_assoc s1 s2 s3 : (s1 +:+ s2) +:+ s3 = s1 +:+ (s2 +:+ s3).
Proof. induction s1 as [|c s1 IH]; [done | by rewrite !app_cons, IH]. Qed.

Lemma len_app s1 s2 : len (s1 +:+ s2) = (len s1 + len s2)%nat.
Proof. induction s1 as [|c s1 IH]; [done | by rewrite app_cons; simpl; rewrite IH]. Qed.

Lemma take_app s1 s2 : take (len s1) (s1 +:+ s2) = s1.
Proof.
  induction s1 as [|c s1 IH]; [by destruct s2 |].
  rewrite app_cons; simpl. by rewrite IH.
Qed.

Lemma drop_app s1 s2 : drop (len s1) (s1 +:+ s2) = s2.
Proof. induction s1 as [|c s1 IH]; [done | by rewrite app_cons]. Qed.

Lemma take_drop n s : take n s +:+ drop n s = s.
Proof.
  revert s; induction n as [|n IH]; intros [|c s]; simpl; try done.
  by rewrite app_cons, IH.
Qed.

Lemma startswith_app p s : startswith p (p +:+ s) = true.
Proof.
  induction p as [|c p IH]; [done|].
  rewrite app_cons; simpl. by rewrite Ascii.eqb_refl.
Qed.

Lemma startswith_inv p s : startswith p s = true -> exists t, s = p +:+ t.
Proof.
  revert s; induction p as [|a p IH]; intros s H; simpl in *.
  - by exists s.
  - destruct s as [|b s]; [done|].
    destruct (Ascii.eqb_spec a b) as [->|]; [|done].
    destruct (IH _ H) as [t ->]. by exists t.
Qed.

End StrFacts.

(** ** Dictionaries *)

Module OrderedDictFacts.
Import OrderedDict.
Section facts.
Context {K V : Type} `{EqDecision K}.
Implicit Types (d : t K V) (k : K) (v : V).

Lemma get_set_eq d k v : get (set d k v) k = Some v.
Proof.
  induction d as [|[k' v'] d IH]; simpl.
  - by rewrite decide_True.
  - destruct (decide (k' = k)) as [->|Hne]; simpl.
    + by rewrite decide_True.
    + by rewrite decide_False.
Qed.

Lemma get_set_ne d k k' v : k ≠ k' -> get (set d k v) k' = get d k'.
Proof.
  intros Hne. induction d as [|[k0 v0] d IH]; simpl.
  - by rewrite decide_False.
  - destruct (decide (k0 = k)) as [->|Hk]; simpl.
    + by rewrite !decide_False.
    + destruct (decide (k0 = k')); [done | apply IH].
Qed.

Lemma get_None d k : get d k = None <-> k ∉ keys d.
Proof.
  unfold keys. induction d as [|[k' v'] d IH]; simpl.
  - split; [intros _; apply not_elem_of_nil | done].
  - rewrite not_elem_of_cons. destruct (decide (k' = k)) as [->|Hne].
    + split; [done | by intros [? _]].
    + rewrite IH. split; [by intros ? | by intros [_ ?]].
Qed.

Lemma get_Some_elem_of d k v : get d k = Some v -> (k, v) ∈ items d.
Proof.
  unfold items. induction d as [|[k' v'] d IH]; simpl; [done|].
  destruct (decide (k' = k)) as [->|Hne].
  - intros [= ->]. left.
  - intros Hg. right. by apply IH.
Qed.

Lemma elem_of_get d k v : NoDup (keys d) -> (k, v) ∈ items d -> get d k = Some v.
Proof.
  unfold keys, items. induction d as [|[k' v'] d IH]; simpl.
  - intros _ Hin. by apply elem_of_nil in Hin.
  - intros [Hk' Hnd]%NoDup_cons [Heq | Hin]%elem_of_cons.
    + injection Heq as -> ->. by rewrite decide_True.
    + destruct (decide (k' = k)) as [->|Hne]; [|by apply IH].
      exfalso. apply Hk'. apply list_elem_of_fmap. by exists (k, v).
Qed.

Lemma set_fresh d k v : k ∉ keys d -> set d k v = d ++ [(k, v)].
Proof.
  unfold keys. induction d as [|[k' v'] d IH]; simpl; [done|].
  intros [Hne Hnin]%not_elem_of_cons.
  rewrite decide_False by done. by rewrite IH.
Qed.

Lemma keys_set_fresh d k v : k ∉ keys d -> keys (set d k v) = keys d ++ [k].
Proof. intros Hk. rewrite set_fresh by done. unfold keys. by rewrite fmap_app. Qed.

Lemma keys_set_old d k v : k ∈ keys d -> keys (set d k v) = keys d.
Proof.
  unfold keys. induction d as [|[k' v'] d IH]; simpl.
  - intros Hin. by apply elem_of_nil in Hin.
  - intros Hin. destruct (decide (k' = k)) as [->|Hne]; simpl; [done|].
    f_equal. apply IH. apply elem_of_cons in Hin as [?|?]; [congruence | done].
Qed.

Lemma NoDup_keys_set d k v : NoDup (keys d) -> NoDup (keys (set d k v)).
Proof.
  intros Hnd. destruct (decide (k ∈ keys d)) as [Hin|Hnin].
  - by rewrite keys_set_old.
  - rewrite keys_set_fresh by done. apply NoDup_app. split_and!; [done | | apply NoDup_singleton].
    intros x Hx ->%list_elem_of_singleton. done.
Qed.

End facts.

Section of_list_facts.
Context {K V : Type} `{EqDecision K}.

Lemma get_foldl_set (l : list (K * V)) (d : t K V) k v :
  get (foldl (fun d kv => set d kv.1 kv.2) d l) k = Some v ->
  (k, v) ∈ l \/ get d k = Some v.
Proof.
  revert d. induction l as [|[k' v'] l IH]; intros d; simpl; [by right|].
  intros Hfold. apply IH in Hfold as [Hin | Hg]; [left; by right|].
  destruct (decide (k' = k)) as [->|Hne].
  - rewrite get_set_eq in Hg. injection Hg as ->. left. left.
  - rewrite get_set_ne in Hg by done. by right.
Qed.

Lemma get_of_list (l : list (K * V)) k v :
  get (of_list l) k = Some v -> (k, v) ∈ l.
Proof. intros [?|Hg]%get_foldl_set; [done | discriminate Hg]. Qed.

Lemma NoDup_keys_foldl_set (l : list (K * V)) (d : t K V) :
  NoDup (keys d) -> NoDup (keys (foldl (fun d kv => set d kv.1 kv.2) d l)).
Proof.
  revert d. induction l as [|[k v] l IH]; intros d Hd; simpl; [done|].
  apply IH. by apply NoDup_keys_set.
Qed.

End of_list_facts.
End OrderedDictFacts.

(** ** The matcher *)

Module ReFacts.

Lemma rest_of_refl s : rest_of s s.
Proof. by exists "". Qed.

Lemma rest_of_trans s1 s2 s3 : rest_of s1 s2 -> rest_of s2 s3 -> rest_of s1 s3.
Proof.
  intros [t1 ->] [t2 ->]. exists (t1 +:+ t2). by rewrite StrFacts.app_assoc.
Qed.

Lemma rest_of_cons c s : rest_of (String c s) s.
Proof. by exists (String c ""). Qed.

Lemma rest_of_len s s' : rest_of s s' -> (len s' <= len s)%nat.
Proof. intros [tok ->]. rewrite StrFacts.len_app. lia. Qed.

Lemma rest_of_take s s' : rest_of s s' -> take (len s - len s') s +:+ s' = s.
Proof.
  intros [tok ->]. rewrite StrFacts.len_app.
  replace (len tok + len s' - len s')%nat with (len tok) by lia.
  by rewrite StrFacts.take_app.
Qed.

Lemma plus_loop_rest (step : string -> list string) :
  (forall s s', s' ∈ step s -> rest_of s s') ->
  forall fuel s s', s' ∈ plus_loop step fuel s -> rest_of s s'.
Proof.
  intros Hstep fuel. induction fuel as [|fuel IH]; intros s s' Hin; simpl in Hin.
  - by apply elem_of_nil in Hin.
  - apply list_elem_of_bind in Hin as (s1 & Hin & Hs1%Hstep).
    apply elem_of_app in Hin as [Hin%IH | ->%list_elem_of_singleton]; [|done].
    by eapply rest_of_trans.
Qed.

(** Every end of a match is a rest of the text. *)
Lemma ends_rest (r : regex) (s s' : string) : s' ∈ ends r s -> rest_of s s'.
Proof.
  revert s s'.
  induction r as [c|neg ranges|r1 IH1 r2 IH2|r1 IH1 r2 IH2|r IH|r IH|n r IH|r IH];
    intros s s'; simpl.
  - destruct s as [|c' s]; [by intros ?%elem_of_nil|].
    destruct (Ascii.eqb c c'); [|by intros ?%elem_of_nil].
    intros ->%list_elem_of_singleton. apply rest_of_cons.
  - destruct s as [|c' s]; [by intros ?%elem_of_nil|].
    destruct (xorb neg _); [|by intros ?%elem_of_nil].
    intros ->%list_elem_of_singleton. apply rest_of_cons.
  - intros (s1 & Hin & Hs1)%list_elem_of_bind.
    eapply rest_of_trans; [by apply IH1 | by apply IH2].
  - intros [?|?]%elem_of_app; auto.
  - intros [?| ->%list_elem_of_singleton]%elem_of_app; [auto | apply rest_of_refl].
  - by apply plus_loop_rest.
  - revert s. induction n as [|n IHn]; intros s.
    + intros ->%list_elem_of_singleton. apply rest_of_refl.
    + intros (s1 & Hin & Hs1)%list_elem_of_bind.
      eapply rest_of_trans; [by apply IH | by apply IHn].
  - apply IH.
Qed.

Lemma match_at_rest (r : regex) (s rest : string) :
  match_at r s = Some rest -> rest_of s rest.
Proof.
  unfold match_at. intros Hhd. apply ends_rest with r.
  destruct (ends r s); [discriminate Hhd|]. injection Hhd as ->. left.
Qed.

(** The alternatives are tried from the first to the last. *)
Lemma ends_alts (r : regex) (rs : list regex) (s : string) :
  ends (alts r rs) s = ends r s ++ (r' ← rs; ends r' s).
Proof.
  revert r. induction rs as [|r' rs IH]; intros r; simpl.
  - by rewrite app_nil_r.
  - by rewrite IH.
Qed.

Lemma join_empty_cons (t : string) (ts : list string) :
  join "" (t :: ts) = t +:+ join "" ts.
Proof. destruct ts; [by rewrite StrFacts.app_nil_r | done]. Qed.

End ReFacts.

(** ** The basic tokenizer *)

(** The text of the pattern, with its line break, compiles to [SMI_REGEX]. *)
Lemma SMI_REGEX_PATTERN_parsed : parse SMI_REGEX_PATTERN = Some SMI_REGEX.
Proof. vm_compute. reflexivity. Qed.

Lemma BasicSmilesTokenizer_default :
  BasicSmilesTokenizer.__init__ SMI_REGEX_PATTERN = inr BasicSmilesTokenizer.default.
Proof.
  unfold BasicSmilesTokenizer.__init__, re_compile.
  by rewrite SMI_REGEX_PATTERN_parsed.
Qed.

Example tokenize_doc :
  BasicSmilesTokenizer.tokenize BasicSmilesTokenizer.default
    "CCC(CC)COC(=O)[C@H](C)N[P@](=O)(OC[C@H]1O[C@](C#N)([C@H](O)[C@@H]1O)C1=CC=C2N1N=CN=C2N)OC1=CC=CC=C1"
  = ["C"; "C"; "C"; "("; "C"; "C"; ")"; "C"; "O"; "C"; "("; "="; "O"; ")";
     "[C@H]"; "("; "C"; ")"; "N"; "[P@]"; "("; "="; "O"; ")"; "("; "O"; "C";
     "[C@H]"; "1"; "O"; "[C@]"; "("; "C"; "N"; ")"; "("; "[C@H]"; "("; "O";
     ")"; "[C@@H]"; "1"; "O"; ")"; "C"; "1"; "="; "C"; "C"; "="; "C"; "2";
     "N"; "1"; "N"; "="; "C"; "N"; "="; "C"; "2"; "N"; ")"; "O"; "C"; "1";
     "="; "C"; "C"; "="; "C"; "C"; "="; "C"; "1"].
Proof. vm_compute. reflexivity. Qed.

(** C2: the tokens of "CCC(CC)COC(=O)[C@H](C)N" are exactly
    C C C ( C C ) C O C ( = O ) [C@H] ( C ) N. *)
Theorem tokenize_example :
  BasicSmilesTokenizer.tokenize BasicSmilesTokenizer.default
    "CCC(CC)COC(=O)[C@H](C)N"
  = ["C"; "C"; "C"; "("; "C"; "C"; ")"; "C"; "O"; "C"; "("; "="; "O"; ")";
     "[C@H]"; "("; "C"; ")"; "N"].
Proof. vm_compute. reflexivity. Qed.

(** "Br" is one token. *)
Example tokenize_Br :
  BasicSmilesTokenizer.tokenize BasicSmilesTokenizer.default "Br" = ["Br"].
Proof. vm_compute. reflexivity. Qed.

(** C1, at the input "C#N": the triple bond is not a token, the tokens are C
    and N, and joined back they give "CN". The [#] of the pattern only
    matches after a line break. *)
Theorem tokenize_drops_triple_bond :
  BasicSmilesTokenizer.tokenize BasicSmilesTokenizer.default "C#N" = ["C"; "N"]
  /\ join "" (BasicSmilesTokenizer.tokenize BasicSmilesTokenizer.default "C#N")
     <> "C#N"
  /\ BasicSmilesTokenizer.tokenize BasicSmilesTokenizer.default
       ("C" +:+ String LF "#N") = ["C"; String LF "#"; "N"].
Proof. vm_compute. split_and!; [reflexivity | discriminate | reflexivity]. Qed.

(** ** Texts made of lexemes *)

Section covering.
Import ReFacts BasicSmilesTokenizer.

Ltac each_ascii c := destruct c as [[] [] [] [] [] [] [] []].

Ltac solve_len := rewrite ?StrFacts.len_app; unfold len; simpl; lia.

Lemma isdigit_cases (d : ascii) :
  isdigit d = true -> d ∈ ["0"; "1"; "2"; "3"; "4"; "5"; "6"; "7"; "8"; "9"]%char.
Proof.
  each_ascii d; intros Hd; try discriminate Hd;
    repeat first [apply list_elem_of_here | apply list_elem_of_further].
Qed.

Lemma not_close_class (c : ascii) :
  xorb true (in_ranges c [("]", "]")]%char) = not_close c.
Proof. by each_ascii c. Qed.

(** The body of a bracket atom: the greedy loop first stops in front of
    the closing bracket. *)
Lemma plus_loop_body (step : string -> list string) :
  (forall c s, step (String c s) = if not_close c then [s] else []) ->
  forall (body : string) (c : ascii) (rest : string) (fuel : nat),
    not_close c = true -> no_close body = true ->
    (len body < fuel)%nat ->
    exists others,
      plus_loop step fuel (String c (body +:+ String "]" rest))
      = String "]" rest :: others.
Proof.
  intros Hstep body.
  induction body as [|c' body IH]; intros c rest fuel Hc Hbody Hfuel.
  - destruct fuel as [|fuel]; [simpl in Hfuel; lia|].
    cbn [plus_loop]. rewrite Hstep, Hc, StrFacts.app_nil_l. exists [].
    cbn [mbind list_bind]. destruct fuel as [|fuel]; [done|].
    cbn [plus_loop]. by rewrite Hstep.
  - destruct fuel as [|fuel]; [simpl in Hfuel; lia|].
    simpl in Hbody. apply andb_prop in Hbody as [Hc' Hbody].
    destruct (IH c' rest fuel Hc' Hbody) as [others Hothers]; [simpl in *; lia|].
    cbn [plus_loop]. rewrite Hstep, Hc, StrFacts.app_cons.
    cbn [mbind list_bind]. rewrite Hothers. by eexists.
Qed.

Lemma ends_not_close (c : ascii) (s : string) :
  ends (Class true [("]", "]")]%char) (String c s) = if not_close c then [s] else [].
Proof. cbn [ends]. by rewrite not_close_class. Qed.

Lemma match_at_bracket (c : ascii) (body rest : string) :
  not_close c = true -> no_close body = true ->
  match_at SMI_REGEX (String "[" (String c (body +:+ "]")) +:+ rest)
  = Some rest.
Proof.
  intros Hc Hbody. unfold match_at, SMI_REGEX.
  cbn [ends]. rewrite ends_alts.
  rewrite !StrFacts.app_cons, StrFacts.app_assoc.
  change ("]" +:+ rest) with (String "]" rest).
  cbn [ends]. rewrite Ascii.eqb_refl. cbn [mbind list_bind].
  destruct (plus_loop_body _ ends_not_close body c rest
              (len (String c (body +:+ String "]" rest))))
    as [others Hothers]; [done | done | |].
  - simpl. rewrite StrFacts.len_app. lia.
  - fold (ends (Class true [("]", "]")]%char)). rewrite Hothers.
    cbn [mbind list_bind ends]. by rewrite Ascii.eqb_refl.
Qed.

Lemma lexeme_head (c : ascii) (l : string) :
  lexeme (String c l) -> c <> "r"%char /\ c <> "l"%char.
Proof.
  intros Hlex. inversion Hlex as [c0 body Hc0 Hbody|l0 Hin|d1 d2 Hd1 Hd2|d Hd]; subst.
  - done.
  - unfold fixed_lexemes in Hin.
    repeat (apply elem_of_cons in Hin as [[= -> ->]|Hin]; [done|]).
    by apply elem_of_nil in Hin.
  - done.
  - split; intros ->; discriminate Hd.
Qed.

Lemma lexeme_nonempty : ~ lexeme "".
Proof.
  intros Hlex. inversion Hlex as [| l0 Hin | |].
  unfold fixed_lexemes in Hin.
  repeat (apply elem_of_cons in Hin as [Heq|Hin]; [discriminate Heq|]).
  by apply elem_of_nil in Hin.
Qed.

Lemma covered_head (c : ascii) (s : string) :
  covered (String c s) -> c <> "r"%char /\ c <> "l"%char.
Proof.
  intros Hcov. inversion Hcov as [|l s0 Hlex Hs0 Heq].
  destruct l as [|c' l]; [by apply lexeme_nonempty in Hlex|].
  rewrite StrFacts.app_cons in Heq. injection Heq as -> _.
  by apply lexeme_head in Hlex.
Qed.

Lemma lexeme_gt (l : string) :
  lexeme (String ">" l) -> l = "" \/ l = ">".
Proof.
  intros Hlex. inversion Hlex as [c0 body Hc0 Hbody|l0 Hin|d1 d2 Hd1 Hd2|d Hd]; subst.
  - unfold fixed_lexemes in Hin.
    repeat (apply elem_of_cons in Hin as [Heq|Hin];
            [try discriminate Heq; injection Heq as ->; auto|]).
    by apply elem_of_nil in Hin.
  - discriminate Hd.
Qed.

Lemma covered_after_gt (s : string) : covered (String ">" s) -> covered s.
Proof.
  intros Hcov. inversion Hcov as [|l s0 Hlex Hs0 Heq].
  destruct l as [|c' l]; [by apply lexeme_nonempty in Hlex|].
  rewrite StrFacts.app_cons in Heq. injection Heq as -> Heq.
  destruct (lexeme_gt _ Hlex) as [-> | ->].
  - by rewrite <- Heq.
  - rewrite <- Heq. apply (covered_cons ">" s0); [|done].
    apply lexeme_fixed. unfold fixed_lexemes.
    repeat first [apply list_elem_of_here | apply list_elem_of_further].
Qed.

(** On a text that starts with a lexeme the pattern matches, and what is
    left is again lexemes one after the other. *)
Lemma match_at_lexeme (l s : string) :
  lexeme l -> covered s ->
  exists rest,
    match_at SMI_REGEX (l +:+ s) = Some rest
    /\ (len rest < len (l +:+ s))%nat
    /\ covered rest.
Proof.
  intros Hlex Hs.
  destruct Hlex as [c body Hc Hbody|l Hin|d1 d2 Hd1 Hd2|d Hd].
  - exists s. split_and!; [by apply match_at_bracket | | done].
    solve_len.
  - assert (forall c s', s = String c s' -> c <> "r"%char /\ c <> "l"%char) as Hnext.
    { intros c s' ->. by apply covered_head in Hs. }
    unfold fixed_lexemes in Hin.
    repeat (apply elem_of_cons in Hin as [->|Hin];
            [try (exists s; split_and!;
                  [vm_compute; reflexivity | solve_len | done])|]);
      [| | |by apply elem_of_nil in Hin].
    + (* B *)
      exists s. split_and!; [|solve_len | done].
      destruct s as [|c s']; [vm_compute; reflexivity|].
      destruct (Hnext c s' eq_refl) as [Hr _].
      each_ascii c; first [vm_compute; reflexivity | done].
    + (* C *)
      exists s. split_and!; [|solve_len | done].
      destruct s as [|c s']; [vm_compute; reflexivity|].
      destruct (Hnext c s' eq_refl) as [_ Hl].
      each_ascii c; first [vm_compute; reflexivity | done].
    + (* > *)
      destruct s as [|c s'].
      { exists "". split_and!; [vm_compute; reflexivity | solve_len | done]. }
      destruct (Ascii.eqb_spec c ">") as [->|Hne].
      * exists s'. split_and!; [vm_compute; reflexivity | solve_len |].
        by apply covered_after_gt.
      * exists (String c s'). split_and!; [| solve_len | done].
        each_ascii c; first [vm_compute; reflexivity | done].
  - exists s. split_and!; [| solve_len | done].
    apply isdigit_cases in Hd1. apply isdigit_cases in Hd2.
    repeat (apply elem_of_cons in Hd1 as [->|Hd1]);
      try (by apply elem_of_nil in Hd1);
      repeat (apply elem_of_cons in Hd2 as [->|Hd2]);
      try (by apply elem_of_nil in Hd2);
      vm_compute; reflexivity.
  - exists s. split_and!; [| solve_len | done].
    apply isdigit_cases in Hd.
    repeat (apply elem_of_cons in Hd as [->|Hd]);
      try (by apply elem_of_nil in Hd);
      vm_compute; reflexivity.
Qed.

Lemma scan_covered (fuel : nat) (s : string) :
  (len s < fuel)%nat -> covered s ->
  join "" (scan fuel SMI_REGEX s) = s.
Proof.
  revert s. induction fuel as [|fuel IH]; intros s Hfuel Hs; [lia|].
  destruct Hs as [|l s Hlex Hs]; [by vm_compute|].
  destruct (match_at_lexeme l s Hlex Hs) as (rest & Hmatch & Hlen & Hrest).
  cbn [scan]. rewrite Hmatch. rewrite decide_True by done.
  rewrite join_empty_cons, IH by (done || lia).
  by apply rest_of_take, match_at_rest with SMI_REGEX.
Qed.

(** On a text that is lexemes of the pattern one after the other, the
    tokens joined back give the text: nothing is skipped. *)
Lemma tokenize_covered (s : string) :
  covered s -> join "" (tokenize default s) = s.
Proof. intros Hs. apply scan_covered; [simpl; lia | done]. Qed.

Lemma covered_join (ls : list string) : Forall lexeme ls -> covered (join "" ls).
Proof.
  induction 1 as [|l ls Hl Hls IH]; [constructor|].
  rewrite join_empty_cons. by constructor.
Qed.

Lemma tokenize_lexemes (ls : list string) :
  Forall lexeme ls -> join "" (tokenize default (join "" ls)) = join "" ls.
Proof. intros Hls. by apply tokenize_covered, covered_join. Qed.

Example tokenize_lexemes_example :
  join "" (tokenize default "[C@H](Br)%12>>Cl") = "[C@H](Br)%12>>Cl".
Proof.
  apply (tokenize_lexemes ["[C@H]"; "("; "Br"; ")"; "%12"; ">"; ">"; "Cl"]).
  repeat apply List.Forall_cons; try apply List.Forall_nil;
    first [ by apply (lexeme_bracket "C" "@H")
          | by apply lexeme_ring
          | apply lexeme_fixed; unfold fixed_lexemes;
            repeat first [apply list_elem_of_here | apply list_elem_of_further] ].
Qed.

End covering.

(** ** Token ids *)

Section token_ids.
Import SmilesTokenizer OrderedDict OrderedDictFacts.

(** C3: [_convert_token_to_id] returns the token's id when the token is in
    the vocabulary and what the vocabulary has for the unknown token
    otherwise; with the unknown token in the vocabulary the result is always
    an id, never [None]. *)
Theorem convert_token_to_id_total (self : SmilesTokenizer.t) (token : string) :
  (forall index, get (vocab self) token = Some index ->
                 _convert_token_to_id self token = Some index)
  /\ (token ∉ keys (vocab self) ->
      _convert_token_to_id self token = get (vocab self) (unk_token (super self)))
  /\ (forall unk_id, get (vocab self) (unk_token (super self)) = Some unk_id ->
        exists index, _convert_token_to_id self token = Some index
                      /\ (token ∉ keys (vocab self) -> index = unk_id)).
Proof.
  unfold _convert_token_to_id. split_and!.
  - by intros index ->.
  - intros Hnin%get_None. by rewrite Hnin.
  - intros unk_id ->. destruct (get (vocab self) token) as [index|] eqn:Hg.
    + exists index. split; [done|]. intros Hnin%get_None. congruence.
    + by exists unk_id.
Qed.

Lemma get_swapped_items (vocab : OrderedDict.t string Z) (i : Z) (tok : string) :
  NoDup (keys vocab) ->
  get (of_list (swapped_items vocab)) i = Some tok -> get vocab tok = Some i.
Proof.
  intros Hnd Htok. apply get_of_list in Htok. unfold swapped_items in Htok.
  apply list_elem_of_fmap in Htok as [[tok' i'] [Heq Hin]].
  simpl in Heq. injection Heq as -> ->. by apply elem_of_get.
Qed.

(** C4: when the tokens of the vocabulary are unique and [ids_to_tokens] is
    the reverse mapping the constructor builds, every id [i] that is a key
    of [ids_to_tokens] comes back: token_to_id (id_to_token i) = i. *)
Theorem id_token_id_roundtrip (self : SmilesTokenizer.t) (i : Z) :
  NoDup (keys (vocab self)) ->
  ids_to_tokens self = of_list (swapped_items (vocab self)) ->
  is_Some (get (ids_to_tokens self) i) ->
  _convert_token_to_id self (_convert_id_to_token self i) = Some i.
Proof.
  intros Hnd Hrev [tok Htok].
  unfold _convert_id_to_token, _convert_token_to_id. rewrite Htok.
  rewrite Hrev in Htok. by rewrite (get_swapped_items _ _ _ Hnd Htok).
Qed.

End token_ids.

(** ** Loading the vocabulary *)

Section loading.
Import SmilesTokenizer OrderedDict OrderedDictFacts.

Lemma vocab_of_lines_foldl (tokens : list string) (start : Z) (d : OrderedDict.t string Z) :
  NoDup (keys d ++ (rstrip NL <$> tokens)) ->
  foldl (fun vocab '(index, token) =>
           let token := rstrip NL token in set vocab token index)
        d (enumerate_from start tokens)
  = d ++ (entry <$> enumerate_from start tokens).
Proof.
  revert start d. induction tokens as [|tok tokens IH]; intros start d Hnd; simpl.
  - by rewrite app_nil_r.
  - simpl in Hnd. apply NoDup_app in Hnd as Hnd'. destruct Hnd' as (Hd & Hdisj & Hl).
    assert (rstrip NL tok ∉ keys d) as Hfresh.
    { intros Hin. apply (Hdisj _ Hin). left. }
    rewrite IH.
    + rewrite set_fresh by done. by rewrite <- app_assoc.
    + rewrite keys_set_fresh by done. by rewrite <- app_assoc.
Qed.

Lemma entry_keys (tokens : list string) (start : Z) :
  (entry <$> enumerate_from start tokens).*1 = rstrip NL <$> tokens.
Proof.
  revert start. induction tokens as [|tok tokens IH]; intros start; simpl; [done|].
  by rewrite IH.
Qed.

Lemma entry_values (tokens : list string) (start : Z) :
  (entry <$> enumerate_from start tokens).*2 = seqZ start (Z.of_nat (length tokens)).
Proof.
  revert start. induction tokens as [|tok tokens IH]; intros start; [done|].
  rewrite seqZ_cons by (simpl; lia). simpl fmap. rewrite IH.
  do 2 f_equal; simpl length; lia.
Qed.

Lemma entry_lookup (tokens : list string) (start : Z) (i : nat) (line : string) :
  tokens !! i = Some line ->
  (rstrip NL line, start + Z.of_nat i) ∈ entry <$> enumerate_from start tokens.
Proof.
  revert start i. induction tokens as [|tok tokens IH]; intros start i; [done|].
  destruct i as [|i]; simpl.
  - intros [= ->]. rewrite Z.add_0_r. left.
  - intros Hi. right.
    replace (start + Z.of_nat (S i)) with (start + 1 + Z.of_nat i) by lia.
    by apply (IH (start + 1)).
Qed.

(** With pairwise distinct lines the vocabulary is the list of the lines,
    each with its index. *)
Lemma vocab_of_lines_distinct (tokens : list string) :
  NoDup (rstrip NL <$> tokens) ->
  vocab_of_lines tokens = entry <$> enumerate tokens.
Proof.
  intros Hnd. unfold vocab_of_lines, enumerate, empty.
  by rewrite vocab_of_lines_foldl.
Qed.

Lemma NoDup_keys_vocab_foldl (tokens : list string) (start : Z) (d : OrderedDict.t string Z) :
  NoDup (keys d) ->
  NoDup (keys (foldl (fun vocab '(index, token) =>
                        let token := rstrip NL token in set vocab token index)
                     d (enumerate_from start tokens))).
Proof.
  revert start d. induction tokens as [|tok tokens IH]; intros start d Hd; [done|].
  simpl. apply IH. by apply NoDup_keys_set.
Qed.

Lemma NoDup_keys_vocab_of_lines (tokens : list string) :
  NoDup (keys (vocab_of_lines tokens)).
Proof. apply NoDup_keys_vocab_foldl. apply NoDup_nil_2. Qed.

Lemma get_vocab_foldl (tok : string) (tokens : list string) (start : Z)
    (d : OrderedDict.t string Z) :
  get (foldl (fun vocab '(index, token) =>
                let token := rstrip NL token in set vocab token index)
             d (enumerate_from start tokens)) tok
  = match last_line tok tokens with
    | Some j => Some (start + Z.of_nat j)
    | None => get d tok
    end.
Proof.
  revert start d. induction tokens as [|token tokens IH]; intros start d; [done|].
  simpl. rewrite IH. destruct (last_line tok tokens) as [j|].
  - f_equal. lia.
  - destruct (decide (rstrip NL token = tok)) as [->|Hne].
    + rewrite get_set_eq. f_equal. lia.
    + by rewrite get_set_ne.
Qed.

(** Whatever the lines are, a token has the index of the last line that
    reads it. *)
Lemma vocab_of_lines_last_line (tokens : list string) (tok : string) :
  get (vocab_of_lines tokens) tok = Z.of_nat <$> last_line tok tokens.
Proof.
  unfold vocab_of_lines, enumerate. rewrite get_vocab_foldl.
  by destruct (last_line tok tokens).
Qed.

(** A tokenizer the constructor has built maps every id it knows to a token
    and back. *)
Lemma init_id_token_id (fs : filesystem) (super_ : BertTokenizer) (vocab_file : string)
    (self : SmilesTokenizer.t) (i : Z) :
  __init__ fs super_ vocab_file = inr self ->
  is_Some (get (ids_to_tokens self) i) ->
  _convert_token_to_id self (_convert_id_to_token self i) = Some i.
Proof.
  unfold __init__, load_vocab. rewrite BasicSmilesTokenizer_default.
  destruct (negb (isfile fs vocab_file)); [done|].
  destruct (fs vocab_file) as [content|]; [|done].
  destruct (max _) as [e|highest]; [done|].
  intros [= <-] [tok Htok]. unfold _convert_id_to_token, _convert_token_to_id.
  cbn [ids_to_tokens vocab SmilesTokenizer.super] in *. rewrite Htok.
  by rewrite (get_swapped_items _ _ _ (NoDup_keys_vocab_of_lines _) Htok).
Qed.

(** C8, as the code has it: when the lines of the file, without their line
    ends, are pairwise distinct, [load_vocab] gives a vocabulary with one
    entry per line, in line order, whose ids are exactly 0..N-1, the id of a
    line being its index. *)
Theorem load_vocab_distinct_lines (fs : filesystem) (vocab_file content : string) :
  fs vocab_file = Some content ->
  NoDup (rstrip NL <$> readlines content) ->
  exists vocab,
    load_vocab fs vocab_file = inr vocab
    /\ size vocab = length (readlines content)
    /\ keys vocab = rstrip NL <$> readlines content
    /\ values vocab = seqZ 0 (Z.of_nat (length (readlines content)))
    /\ (forall (i : nat) line, readlines content !! i = Some line ->
          get vocab (rstrip NL line) = Some (Z.of_nat i)).
Proof.
  intros Hfs Hnd. unfold load_vocab. rewrite Hfs. eexists. split; [reflexivity|].
  pose proof (NoDup_keys_vocab_of_lines (readlines content)) as Hkeys.
  rewrite vocab_of_lines_distinct in * by done.
  unfold size, keys, values, enumerate in *. split_and!.
  - rewrite <- (length_fmap fst), entry_keys. by rewrite length_fmap.
  - apply entry_keys.
  - apply entry_values.
  - intros i line Hi. apply elem_of_get; [done|].
    by apply (entry_lookup _ 0) in Hi.
Qed.

(** C8 as stated fails: a file of two equal lines gives one entry. *)
Lemma load_vocab_duplicate_lines :
  ~ (forall (fs : filesystem) (vocab_file content : string) vocab,
       fs vocab_file = Some content ->
       load_vocab fs vocab_file = inr vocab ->
       size vocab = length (readlines content)
       /\ values vocab = seqZ 0 (Z.of_nat (length (readlines content)))).
Proof.
  intros H.
  destruct (H twice_fs "vocab.txt" _ _ eq_refl eq_refl) as [Hsize _].
  vm_compute in Hsize. discriminate Hsize.
Qed.

(** ** The constructor *)

Lemma unused_indices_nil (vocab : OrderedDict.t string Z) :
  unused_indices vocab = [] <->
  forall tok, tok ∈ keys vocab -> startswith "[unused" tok = false.
Proof.
  unfold unused_indices, enumerate. generalize 0. generalize (keys vocab).
  generalize (startswith "[unused"). intros p l.
  induction l as [|k l IH]; intros start; simpl.
  - split; [|done]. intros _ tok Hin. by apply elem_of_nil in Hin.
  - destruct (p k) eqn:Hk; simpl.
    + split; [done|]. intros Hall. specialize (Hall k (list_elem_of_here _ _)). congruence.
    + rewrite IH. split.
      * intros Hall tok [->|Hin]%elem_of_cons; auto.
      * intros Hall tok Hin. apply Hall. by right.
Qed.

(** C9: construction succeeds only if some token of the loaded vocabulary
    starts with "[unused"; for a vocabulary file with no such token the
    constructor raises the error [max] raises on an empty list. *)
Theorem init_needs_unused_token (fs : filesystem) (super_ : BertTokenizer)
    (vocab_file : string) :
  (forall self, __init__ fs super_ vocab_file = inr self ->
     exists tok, tok ∈ keys (vocab self) /\ startswith "[unused" tok = true)
  /\ (forall content,
        fs vocab_file = Some content ->
        (forall tok, tok ∈ keys (vocab_of_lines (readlines content)) ->
                     startswith "[unused" tok = false) ->
        exists e, max [] = inl e /\ __init__ fs super_ vocab_file = inl e).
Proof.
  unfold __init__, isfile, load_vocab. rewrite BasicSmilesTokenizer_default. split.
  - intros self. destruct (fs vocab_file) as [content|] eqn:Hfs.
    + rewrite bool_decide_eq_true_2 by eauto. simpl.
      destruct (unused_indices _) as [|i l] eqn:Hidx; simpl; [done|].
      intros [= <-]. simpl.
      destruct (decide (Exists (fun tok => startswith "[unused" tok = true)
                               (keys (vocab_of_lines (readlines content)))))
        as [Hex|Hnex].
      * apply Exists_exists in Hex as (tok & Hin & Htok). eauto.
      * exfalso. assert (unused_indices (vocab_of_lines (readlines content)) = []) as Hnil.
        { apply unused_indices_nil. intros tok Hin.
          destruct (startswith "[unused" tok) eqn:Htok; [|done].
          exfalso. apply Hnex, Exists_exists. eauto. }
        congruence.
    + rewrite bool_decide_eq_false_2 by (by intros [? ?]). done.
  - intros content Hfs Hall. rewrite Hfs.
    rewrite bool_decide_eq_true_2 by eauto. simpl.
    apply unused_indices_nil in Hall. rewrite Hall. by eexists.
Qed.

End loading.

(** ** List objects *)

Module PyFacts.
Import Py.

Lemma old_refl (h : store) : old h h.
Proof. by intros r l. Qed.

Lemma old_trans (h1 h2 h3 : store) : old h1 h2 -> old h2 h3 -> old h1 h3.
Proof. intros H12 H23 r l Hr. by apply H23, H12. Qed.

Lemma old_app (h new : store) : old h (h ++ new).
Proof. intros r l Hr. by apply lookup_app_l_Some. Qed.

Lemma old_fresh (h h' : store) (r : ref) : old h h' -> h' !! r = None -> h !! r = None.
Proof.
  intros Hold Hr. destruct (h !! r) as [l|] eqn:Hl; [|done].
  exfalso. apply Hold in Hl. congruence.
Qed.

Lemma wp_ret {A : Type} (x : A) (h : store) (Q : A -> store -> Prop) :
  Q x h -> wp (mret x) h Q.
Proof. intros HQ. exists x, h. split_and!; [done | apply old_refl | done]. Qed.

Lemma wp_bind {A B : Type} (m : M A) (k : A -> M B) (h : store)
    (Q : B -> store -> Prop) :
  wp m h (fun x h1 => old h h1 -> wp (k x) h1 Q) -> wp (m ≫= k) h Q.
Proof.
  intros (x & h1 & Hm & Hold1 & (y & h2 & Hk & Hold2 & HQ)%(fun H => H Hold1)).
  exists y, h2. unfold mbind, M_bind. rewrite Hm.
  split_and!; [done | by eapply old_trans | done].
Qed.

Lemma wp_new_list (l : list Z) (h : store) (Q : ref -> store -> Prop) :
  (forall r h', h !! r = None -> h' !! r = Some l -> Q r h') ->
  wp (new_list l) h Q.
Proof.
  intros HQ. exists (length h), (h ++ [l]). split_and!.
  - done.
  - apply old_app.
  - apply HQ; [by apply lookup_ge_None_2 | by apply list_lookup_middle].
Qed.

Lemma wp_deref (r : ref) (l : list Z) (h : store) (Q : list Z -> store -> Prop) :
  h !! r = Some l -> Q l h -> wp (deref r) h Q.
Proof.
  intros Hr HQ. exists l, h. unfold deref. rewrite Hr.
  split_and!; [done | apply old_refl | done].
Qed.

Lemma wp_list_len (a : ref) (la : list Z) (h : store) (Q : Z -> store -> Prop) :
  h !! a = Some la -> Q (Z.of_nat (length la)) h -> wp (list_len a) h Q.
Proof.
  intros Ha HQ. unfold list_len. apply wp_bind, (wp_deref _ la); [done|].
  intros _. by apply wp_ret.
Qed.

Lemma wp_list_add (a b : ref) (la lb : list Z) (h : store) (Q : ref -> store -> Prop) :
  h !! a = Some la -> h !! b = Some lb ->
  (forall r h', h !! r = None -> h' !! r = Some (la ++ lb) -> Q r h') ->
  wp (list_add a b) h Q.
Proof.
  intros Ha Hb HQ. unfold list_add.
  apply wp_bind, (wp_deref _ la); [done|]. intros _.
  apply wp_bind, (wp_deref _ lb); [done|]. intros _.
  by apply wp_new_list.
Qed.

Lemma wp_list_mul (a : ref) (la : list Z) (n : Z) (h : store) (Q : ref -> store -> Prop) :
  h !! a = Some la ->
  PY_SSIZE_T_MIN <= n ->
  (forall r h', h !! r = None ->
                h' !! r = Some (mjoin (replicate (Z.to_nat n) la)) -> Q r h') ->
  wp (list_mul a n) h Q.
Proof.
  intros Ha Hn HQ. unfold list_mul.
  apply wp_bind, (wp_deref _ la); [done|]. intros _.
  rewrite decide_False by lia. by apply wp_new_list.
Qed.

(** Chains the [old] facts of the steps of a run. *)
Ltac solve_old :=
  first [ eassumption | apply old_refl | eapply old_trans; [eassumption | solve_old] ].

Lemma mjoin_replicate_singleton (n : nat) (x : Z) :
  mjoin (replicate n [x]) = replicate n x.
Proof. induction n as [|n IH]; simpl; [done | by rewrite IH]. Qed.

End PyFacts.

(** ** Special tokens and padding *)

Section id_lists.
Import Py PyFacts SmilesTokenizer.
Context (self : SmilesTokenizer.t).

Let cls : Z := cls_token_id (super self).
Let sep : Z := sep_token_id (super self).
Let pad : Z := pad_token_id (super self).

Lemma wp_add_special_tokens_ids_single_sequence (h : store) token_ids ids :
  h !! token_ids = Some ids ->
  wp (add_special_tokens_ids_single_sequence self token_ids) h
     (fun r h' => h !! r = None /\ h' !! r = Some ([cls] ++ ids ++ [sep])).
Proof.
  intros Hids. unfold add_special_tokens_ids_single_sequence.
  apply wp_bind, wp_new_list. intros a h1 _ Ha Hold1.
  apply wp_bind, (wp_list_add _ _ [cls] ids); [done | by apply Hold1 |].
  intros b h2 _ Hb Hold2.
  apply wp_bind, wp_new_list. intros c h3 _ Hc Hold3.
  apply (wp_list_add _ _ ([cls] ++ ids) [sep]); [by apply Hold3 | done |].
  intros r h4 Hfresh Hr. split.
  - eapply old_fresh; [|done]. solve_old.
  - by rewrite Hr, <- app_assoc.
Qed.

Lemma wp_add_special_tokens_ids_sequence_pair (h : store)
    token_ids_0 token_ids_1 ids_0 ids_1 :
  h !! token_ids_0 = Some ids_0 ->
  h !! token_ids_1 = Some ids_1 ->
  wp (add_special_tokens_ids_sequence_pair self token_ids_0 token_ids_1) h
     (fun r h' => h !! r = None
                  /\ h' !! r = Some ([cls] ++ ids_0 ++ [sep] ++ ids_1 ++ [sep])).
Proof.
  intros Hids0 Hids1. unfold add_special_tokens_ids_sequence_pair.
  apply wp_bind, wp_new_list. intros s h1 _ Hs Hold1.
  apply wp_bind, wp_new_list. intros c h2 _ Hc Hold2.
  apply wp_bind, (wp_list_add _ _ [cls] ids_0); [done | apply Hold2, Hold1, Hids0 |].
  intros a h3 _ Ha Hold3.
  apply wp_bind, (wp_list_add _ _ ([cls] ++ ids_0) [sep]);
    [done | apply Hold3, Hold2, Hs |].
  intros b h4 _ Hb Hold4.
  apply wp_bind, (wp_list_add _ _ (([cls] ++ ids_0) ++ [sep]) ids_1);
    [done | apply Hold4, Hold3, Hold2, Hold1, Hids1 |].
  intros d h5 _ Hd Hold5.
  apply (wp_list_add _ _ ((([cls] ++ ids_0) ++ [sep]) ++ ids_1) [sep]);
    [done | apply Hold5, Hold4, Hold3, Hold2, Hs |].
  intros r h6 Hfresh Hr. split.
  - eapply old_fresh; [|done]. solve_old.
  - by rewrite Hr, <- !app_assoc.
Qed.

Lemma wp_add_padding_tokens (h : store) token_ids ids (length : Z) (right : bool) :
  h !! token_ids = Some ids ->
  PY_SSIZE_T_MIN <= length - Z.of_nat (List.length ids) ->
  let padding := replicate (Z.to_nat (length - Z.of_nat (List.length ids))) pad in
  wp (add_padding_tokens self token_ids length right) h
     (fun r h' => h !! r = None
                  /\ h' !! r = Some (if right then ids ++ padding else padding ++ ids)).
Proof.
  intros Hids Hcount padding. unfold add_padding_tokens.
  apply wp_bind, wp_new_list. intros a h1 _ Ha Hold1.
  apply wp_bind, (wp_list_len _ ids); [by apply Hold1|]. intros _.
  apply wp_bind, (wp_list_mul _ [pad]); [done | done |].
  rewrite mjoin_replicate_singleton. fold padding.
  intros p h2 _ Hp Hold2.
  destruct right.
  - apply (wp_list_add _ _ ids padding); [apply Hold2, Hold1, Hids | done |].
    intros r h3 Hfresh Hr. split; [|done].
    eapply old_fresh; [|done]. solve_old.
  - apply (wp_list_add _ _ padding ids); [done | apply Hold2, Hold1, Hids |].
    intros r h3 Hfresh Hr. split; [|done].
    eapply old_fresh; [|done]. solve_old.
Qed.


(** C10, with the bound it needs: when the target length is at most the
    length of the id list, and not more than 2^63 below it,
    [add_padding_tokens] raises nothing and returns a list with the ids of
    the input, neither padded nor cut. *)
Theorem add_padding_tokens_short_target (h : store) (token_ids : ref) (ids : list Z)
    (length : Z) (right : bool) :
  h !! token_ids = Some ids ->
  length <= Z.of_nat (List.length ids) ->
  PY_SSIZE_T_MIN <= length - Z.of_nat (List.length ids) ->
  exists r h',
    add_padding_tokens self token_ids length right h = Some (r, h')
    /\ h' !! r = Some ids
    /\ h' !! token_ids = Some ids.
Proof.
  intros Hids Hlen Hcount.
  destruct (wp_add_padding_tokens h token_ids ids length right Hids Hcount)
    as (r & h' & Hrun & Hold & _ & Hr).
  exists r, h'. split_and!; [done | | by apply Hold].
  rewrite Hr. replace (Z.to_nat _) with 0%nat by lia. simpl.
  destruct right; [by rewrite app_nil_r | done].
Qed.

(** C6: the single-sequence wrapper returns the start id, the ids, the end
    id; the pair wrapper returns the start id, the ids of A, the separator
    id, the ids of B, the separator id. Both return a new list and leave
    every list there was, the inputs among them, as it was. *)
Theorem add_special_tokens_ids_wraps (h : store) (token_ids_0 token_ids_1 : ref)
    (ids_0 ids_1 : list Z) :
  h !! token_ids_0 = Some ids_0 ->
  h !! token_ids_1 = Some ids_1 ->
  (exists r h',
     add_special_tokens_ids_single_sequence self token_ids_0 h = Some (r, h')
     /\ h' !! r = Some ([cls_token_id (super self)] ++ ids_0
                          ++ [sep_token_id (super self)])
     /\ h !! r = None
     /\ forall r0 l, h !! r0 = Some l -> h' !! r0 = Some l)
  /\ (exists r h',
        add_special_tokens_ids_sequence_pair self token_ids_0 token_ids_1 h
        = Some (r, h')
        /\ h' !! r = Some ([cls_token_id (super self)] ++ ids_0
                             ++ [sep_token_id (super self)] ++ ids_1
                             ++ [sep_token_id (super self)])
        /\ h !! r = None
        /\ forall r0 l, h !! r0 = Some l -> h' !! r0 = Some l).
Proof.
  intros Hids0 Hids1. split.
  - destruct (wp_add_special_tokens_ids_single_sequence h _ _ Hids0)
      as (r & h' & Hrun & Hold & Hfresh & Hr).
    by exists r, h'.
  - destruct (wp_add_special_tokens_ids_sequence_pair h _ _ _ _ Hids0 Hids1)
      as (r & h' & Hrun & Hold & Hfresh & Hr).
    by exists r, h'.
Qed.

End id_lists.

(** A count that does not fit an index: [add_padding_tokens] raises. *)
Lemma add_padding_tokens_raises (self : SmilesTokenizer.t) (h : Py.store)
    (token_ids : Py.ref) (ids : list Z) (length : Z) (right : bool) :
  h !! token_ids = Some ids ->
  length - Z.of_nat (List.length ids) < Py.PY_SSIZE_T_MIN ->
  SmilesTokenizer.add_padding_tokens self token_ids length right h = None.
Proof.
  intros Hids Hcount.
  unfold SmilesTokenizer.add_padding_tokens, Py.list_mul, Py.list_len, Py.deref, Py.new_list,
    Py.OverflowError, mbind, mret, Py.M_bind, Py.M_ret.
  rewrite (lookup_app_l_Some _ _ _ _ Hids), list_lookup_middle by done.
  by rewrite decide_True.
Qed.

(** C10 as stated fails: three ids and the target length -2^63 + 2 make the
    count of pad ids -2^63 - 1, which is no index, and [[pad] * count]
    raises OverflowError where the claim has the ids returned. *)
Lemma add_padding_tokens_overflow :
  ~ (forall (self : SmilesTokenizer.t) (h : Py.store) (token_ids : Py.ref)
            (ids : list Z) (length : Z) (right : bool),
       h !! token_ids = Some ids ->
       length <= Z.of_nat (List.length ids) ->
       exists r h',
         SmilesTokenizer.add_padding_tokens self token_ids length right h = Some (r, h')
         /\ h' !! r = Some ids
         /\ h' !! token_ids = Some ids).
Proof.
  intros H.
  destruct (H example_self [[1; 2; 3]] 0%nat [1; 2; 3] (-9223372036854775806) true
              eq_refl ltac:(simpl; lia)) as (r & h' & Hrun & _).
  vm_compute in Hrun. discriminate Hrun.
Qed.

(** ** Tokens to string *)

Section tokens_to_string.
Import SmilesTokenizer.

Lemma join_joined_by (sep : string) (ts : list string) : joined_by sep ts (join sep ts).
Proof.
  induction ts as [|t ts IH]; [constructor|].
  destruct ts as [|t' ts]; [constructor|].
  change (join sep (t :: t' :: ts)) with (t +:+ sep +:+ join sep (t' :: ts)).
  by constructor.
Qed.

Lemma replace_scan_removed (old : string) (fuel : nat) (s : string) :
  old <> "" -> (len s <= fuel)%nat -> removed old s (replace_scan fuel old "" s).
Proof.
  intros Hold. revert s. induction fuel as [|fuel IH]; intros s Hlen.
  - destruct s; [constructor | simpl in Hlen; lia].
  - destruct s as [|c s]; [constructor|].
    simpl replace_scan. destruct (startswith old (String c s)) eqn:Hpre.
    + apply StrFacts.startswith_inv in Hpre as [t Ht].
      rewrite Ht, StrFacts.drop_app, StrFacts.app_nil_l.
      constructor. apply IH.
      assert (len (String c s) = len old + len t)%nat as Hl
        by (by rewrite Ht, StrFacts.len_app).
      destruct old; [done|]. simpl in *. lia.
    + constructor; [done|]. apply IH. simpl in Hlen. lia.
Qed.

Lemma replace_removed (old s : string) :
  old <> "" -> removed old s (replace old "" s).
Proof.
  intros Hold. destruct old as [|c old]; [done|].
  by apply replace_scan_removed.
Qed.

Lemma lstrip_by_spec (p : ascii -> bool) (s : string) :
  (exists l, s = l +:+ lstrip_by p s /\ all_of p l = true)
  /\ (forall c t, lstrip_by p s = String c t -> p c = false).
Proof.
  induction s as [|c s [(l & Hl & Hall) Hhead]]; simpl.
  - split; [by exists "" | done].
  - destruct (p c) eqn:Hc.
    + split; [|done]. exists (String c l). split.
      * by rewrite StrFacts.app_cons, <- Hl.
      * simpl. by rewrite Hc.
    + split; [by exists ""|]. by intros c' t [= <- <-].
Qed.

Lemma rstrip_by_spec (p : ascii -> bool) (s : string) :
  (exists r, s = rstrip_by p s +:+ r /\ all_of p r = true)
  /\ (forall c t, rstrip_by p s = t +:+ String c "" -> p c = false)
  /\ (forall c t, rstrip_by p s = String c t -> exists t', s = String c t').
Proof.
  induction s as [|c s ((r & Hr & Hall) & Hlast & Hhead)]; simpl.
  - split_and!; [by exists "" | by intros c [|??] | done].
  - destruct (rstrip_by p s) as [|c' u] eqn:Hu.
    + destruct (p c) eqn:Hc.
      * split_and!; [|by intros c0 [|??] | done].
        exists (String c r). split; [by rewrite Hr | simpl; by rewrite Hc].
      * split_and!.
        -- exists r. by rewrite Hr.
        -- intros c0 [|c1 t]; [by intros [= <-] | by destruct t].
        -- intros c0 t [= <- <-]. eauto.
    + split_and!.
      * exists r. by rewrite Hr.
      * intros c0 [|c1 t]; [done|].
        rewrite StrFacts.app_cons. intros [= <- Ht]. by apply (Hlast c0 t).
      * intros c0 t [= <- <-]. eauto.
Qed.

Lemma strip_trimmed (s : string) : trimmed s (strip s).
Proof.
  unfold strip.
  destruct (lstrip_by_spec isspace s) as [(l & Hl & Hall_l) Hhead].
  destruct (rstrip_by_spec isspace (lstrip_by isspace s))
    as ((r & Hr & Hall_r) & Hlast & Hkeep).
  split_and!.
  - exists l, r. split_and!; [|done..]. by rewrite <- Hr.
  - intros c t Ht. destruct (Hkeep _ _ Ht) as [t' Ht']. by apply (Hhead c t').
  - done.
Qed.

Lemma joined_by_fun (sep : string) (ts : list string) (s1 s2 : string) :
  joined_by sep ts s1 -> joined_by sep ts s2 -> s1 = s2.
Proof.
  intros H1. revert s2. induction H1 as [|t|t ts s Hne H1 IH]; intros s2 H2.
  - by inversion H2.
  - inversion H2; [done | congruence].
  - inversion H2 as [| |t0 ts0 s0 Hne0 H0]; subst; [done|].
    by rewrite (IH _ H0).
Qed.

Lemma removed_fun (old s a b : string) :
  old <> "" -> removed old s a -> removed old s b -> a = b.
Proof.
  intros Hold Ha. revert b.
  induction Ha as [|s a Ha IH|c s a Hpre Ha IH]; intros b Hb.
  - inversion Hb as [|s0 b0 Hb0 Heq|]; [done|].
    destruct old; [done | discriminate Heq].
  - inversion Hb as [Heq|s0 b0 Hb0 Heq|c0 s0 b0 Hpre0 Hb0 Heq].
    + destruct old; [done | discriminate Heq].
    + apply (inj (String.app old)) in Heq. subst s0. by apply IH.
    + rewrite Heq, StrFacts.startswith_app in Hpre0. discriminate Hpre0.
  - inversion Hb as [|s0 b0 Hb0 Heq|c0 s0 b0 Hpre0 Hb0]; subst.
    + rewrite <- Heq, StrFacts.startswith_app in Hpre. discriminate Hpre.
    + f_equal. by apply IH.
Qed.

Lemma lstrip_by_app (p : ascii -> bool) (l u : string) :
  all_of p l = true -> lstrip_by p (l +:+ u) = lstrip_by p u.
Proof.
  induction l as [|c l IH]; [done|]. simpl all_of.
  intros [Hc Hl]%andb_prop. rewrite StrFacts.app_cons. simpl.
  rewrite Hc. by apply IH.
Qed.

Lemma rstrip_by_all (p : ascii -> bool) (r : string) :
  all_of p r = true -> rstrip_by p r = "".
Proof.
  induction r as [|c r IH]; [done|]. simpl.
  intros [Hc Hr]%andb_prop. by rewrite IH, Hc.
Qed.

Lemma rstrip_by_app (p : ascii -> bool) (u r : string) :
  all_of p r = true -> rstrip_by p (u +:+ r) = rstrip_by p u.
Proof.
  intros Hr. induction u as [|c u IH]; [by apply rstrip_by_all|].
  rewrite StrFacts.app_cons. simpl. by rewrite IH.
Qed.

Lemma rstrip_by_id (p : ascii -> bool) (u : string) :
  (forall c t, u = t +:+ String c "" -> p c = false) -> rstrip_by p u = u.
Proof.
  induction u as [|c u IH]; [done|]. intros Hlast. simpl.
  rewrite IH.
  - destruct u; [|done]. by rewrite (Hlast c "").
  - intros c0 t ->. by apply (Hlast c0 (String c t)).
Qed.

Lemma trimmed_strip (s t : string) : trimmed s t -> t = strip s.
Proof.
  intros [(l & r & -> & Hl & Hr) [Hhead Hlast]]. unfold strip.
  rewrite lstrip_by_app by done. destruct t as [|c t].
  - rewrite StrFacts.app_nil_l.
    rewrite <- (StrFacts.app_nil_r r) at 1. rewrite lstrip_by_app by done. done.
  - rewrite StrFacts.app_cons. simpl. rewrite (Hhead c t) by done.
    rewrite <- StrFacts.app_cons, rstrip_by_app by done.
    by rewrite rstrip_by_id.
Qed.

(** C7: the result of [convert_tokens_to_string] is the one string obtained
    from the tokens by joining them with one space, then leaving out every
    occurrence of " ##", then trimming the whitespace at the two ends. *)
Theorem convert_tokens_to_string_steps (self : SmilesTokenizer.t)
    (tokens : list string) (out : string) :
  (exists joined unmarked,
     joined_by " " tokens joined
     /\ removed " ##" joined unmarked
     /\ trimmed unmarked out)
  <-> out = convert_tokens_to_string self tokens.
Proof.
  split.
  - intros (joined & unmarked & Hj & Hr & Ht).
    rewrite (joined_by_fun _ _ _ _ Hj (join_joined_by " " tokens)) in Hr.
    assert (unmarked = replace " ##" "" (join " " tokens)) as ->.
    { eapply removed_fun; [|exact Hr|by apply replace_removed]. done. }
    by apply trimmed_strip.
  - intros ->.
    exists (join " " tokens), (replace " ##" "" (join " " tokens)).
    split_and!.
    + apply join_joined_by.
    + by apply replace_removed.
    + apply strip_trimmed.
Qed.

Example convert_tokens_to_string_wordpiece (self : SmilesTokenizer.t) :
  convert_tokens_to_string self [" C"; "##C"; "O "] = "CC O".
Proof. reflexivity. Qed.

End tokens_to_string.

(** ** The small vocabulary *)

Section examples.
Import Py SmilesTokenizer OrderedDict.

(** The constructor on the small vocabulary file. *)
Example example_init :
  __init__ example_fs example_super "vocab.txt" = inr example_self.
Proof. vm_compute. reflexivity. Qed.

(** [encode] of the docstring, token by token: C is 16, ( is 17, O is 19. *)
Example example_ids :
  map (_convert_token_to_id example_self) (_tokenize example_self "CC(O)")
  = [Some 16; Some 16; Some 17; Some 19; Some 18].
Proof. vm_compute. reflexivity. Qed.

Lemma convert_token_to_id_total_witness :
  get (vocab example_self) (unk_token (super example_self)) = Some 11
  /\ ("Q" ∉ keys (vocab example_self))
  /\ _convert_token_to_id example_self "Q" = Some 11
  /\ _convert_token_to_id example_self "C" = Some 16.
Proof.
  assert (get (vocab example_self) (unk_token (super example_self)) = Some 11)
    as Hunk by reflexivity.
  assert ("Q" ∉ keys (vocab example_self)) as Hnew
    by (apply (bool_decide_unpack _); vm_compute; exact I).
  destruct (convert_token_to_id_total example_self "Q") as (_ & _ & Hq).
  destruct (Hq 11 Hunk) as (index & Hrun & Hindex).
  destruct (convert_token_to_id_total example_self "C") as (Hc & _ & _).
  split_and!; [done | done | | by apply Hc].
  rewrite Hrun. f_equal. by apply Hindex.
Defined.

Lemma id_token_id_roundtrip_witness :
  NoDup (keys (vocab example_self))
  /\ is_Some (get (ids_to_tokens example_self) 16)
  /\ _convert_token_to_id example_self (_convert_id_to_token example_self 16)
     = Some 16.
Proof.
  assert (NoDup (keys (vocab example_self))) as Hnd
    by (apply (bool_decide_unpack _); vm_compute; exact I).
  assert (is_Some (get (ids_to_tokens example_self) 16)) as Hkey by (by exists "C").
  split_and!; [done | done |].
  apply (id_token_id_roundtrip example_self 16 Hnd); [reflexivity | done].
Defined.

Lemma load_vocab_distinct_lines_witness :
  NoDup (rstrip NL <$> readlines example_file)
  /\ exists vocab,
       load_vocab example_fs "vocab.txt" = inr vocab
       /\ size vocab = 20%nat
       /\ values vocab = seqZ 0 20
       /\ get vocab "C" = Some 16.
Proof.
  assert (NoDup (rstrip NL <$> readlines example_file)) as Hnd
    by (apply (bool_decide_unpack _); vm_compute; exact I).
  split; [done|].
  destruct (load_vocab_distinct_lines example_fs "vocab.txt" example_file eq_refl Hnd)
    as (vocab & Hload & Hsize & _ & Hvalues & Hget).
  exists vocab. split_and!; [done | by rewrite Hsize | by rewrite Hvalues |].
  by apply (Hget 16%nat ("C" +:+ NL)).
Defined.

Lemma init_needs_unused_token_witness :
  (exists tok, tok ∈ keys (vocab example_self) /\ startswith "[unused" tok = true)
  /\ (exists e, max [] = inl e /\ __init__ bare_fs example_super "vocab.txt" = inl e).
Proof.
  split.
  - apply (proj1 (init_needs_unused_token example_fs example_super "vocab.txt")).
    vm_compute. reflexivity.
  - apply (proj2 (init_needs_unused_token bare_fs example_super "vocab.txt")
             ("C" +:+ NL +:+ "O" +:+ NL) eq_refl).
    intros tok Hin. vm_compute in Hin.
    apply elem_of_cons in Hin as [->|Hin]; [reflexivity|].
    apply elem_of_cons in Hin as [->|Hin]; [reflexivity|].
    by apply elem_of_nil in Hin.
Defined.


Lemma add_padding_tokens_short_target_witness :
  exists r h', add_padding_tokens example_self 0%nat 2 true [[1; 2; 3]] = Some (r, h')
               /\ h' !! r = Some [1; 2; 3]
               /\ h' !! 0%nat = Some [1; 2; 3].
Proof.
  apply (add_padding_tokens_short_target example_self [[1; 2; 3]] 0%nat [1; 2; 3] 2 true
           eq_refl).
  - simpl. lia.
  - unfold PY_SSIZE_T_MIN. simpl. lia.
Defined.

Lemma add_special_tokens_ids_wraps_witness :
  (exists r h',
     add_special_tokens_ids_single_sequence example_self 0%nat [[5; 6]; [7]]
     = Some (r, h')
     /\ h' !! r = Some [12; 5; 6; 13]
     /\ h' !! 0%nat = Some [5; 6])
  /\ (exists r h',
        add_special_tokens_ids_sequence_pair example_self 0%nat 1%nat [[5; 6]; [7]]
        = Some (r, h')
        /\ h' !! r = Some [12; 5; 6; 13; 7; 13]
        /\ h' !! 0%nat = Some [5; 6] /\ h' !! 1%nat = Some [7]).
Proof.
  destruct (add_special_tokens_ids_wraps example_self [[5; 6]; [7]] 0%nat 1%nat
              [5; 6] [7] eq_refl eq_refl)
    as [(r & h' & Hrun & Hr & _ & Hold) (r2 & h2 & Hrun2 & Hr2 & _ & Hold2)].
  split.
  - exists r, h'. split_and!; [done | done | by apply Hold].
  - exists r2, h2. split_and!; [done | done | by apply Hold2 | by apply Hold2].
Defined.

Lemma convert_tokens_to_string_steps_witness :
  exists joined unmarked,
    joined_by " " [" C"; "##C"; "O "] joined
    /\ removed " ##" joined unmarked
    /\ trimmed unmarked "CC O".
Proof.
  apply (proj2 (convert_tokens_to_string_steps example_self [" C"; "##C"; "O "] "CC O")).
  reflexivity.
Defined.

(** The scan for " ##" does not go back: a marker that only forms when
    another one goes stays. *)
Example convert_tokens_to_string_one_pass :
  convert_tokens_to_string example_self ["a"; "#"; "###"] = "a ##".
Proof. reflexivity. Qed.

End examples.

(** * More of the module *)

(** ** What the tokenizer returns *)

Section tokens.
Import ReFacts.

Lemma plus_loop_matches (r : regex) (step : string -> list string) :
  (forall s s', s' ∈ step s -> exists tok, s = tok +:+ s' /\ matches r tok) ->
  forall fuel s s', s' ∈ plus_loop step fuel s ->
                    exists tok, s = tok +:+ s' /\ matches (Plus r) tok.
Proof.
  intros Hstep fuel. induction fuel as [|fuel IH]; intros s s' Hin; simpl in Hin.
  - by apply elem_of_nil in Hin.
  - apply list_elem_of_bind in Hin as (s1 & Hin & (t1 & -> & Ht1)%Hstep).
    apply elem_of_app in Hin as [Hin | ->%list_elem_of_singleton].
    + apply IH in Hin as (t2 & -> & Ht2). exists (t1 +:+ t2).
      split; [by rewrite StrFacts.app_assoc | by constructor].
    + exists t1. split; [done | by constructor].
Qed.

(** The matcher is sound: what it consumes is a match of the pattern. *)
Lemma ends_matches (r : regex) (s s' : string) :
  s' ∈ ends r s -> exists tok, s = tok +:+ s' /\ matches r tok.
Proof.
  revert s s'.
  induction r as [c|neg ranges|r1 IH1 r2 IH2|r1 IH1 r2 IH2|r IH|r IH|n r IH|r IH];
    intros s s'; cbn [ends].
  - destruct s as [|c' s]; [by intros ?%elem_of_nil|].
    destruct (Ascii.eqb_spec c c') as [->|]; [|by intros ?%elem_of_nil].
    intros ->%list_elem_of_singleton. exists (String c' ""). split; [done | constructor].
  - destruct s as [|c' s]; [by intros ?%elem_of_nil|].
    destruct (xorb neg _) eqn:Hc; [|by intros ?%elem_of_nil].
    intros ->%list_elem_of_singleton. exists (String c' ""). split; [done | by constructor].
  - intros (s1 & (t2 & -> & Ht2)%IH2 & (t1 & -> & Ht1)%IH1)%list_elem_of_bind.
    exists (t1 +:+ t2). split; [by rewrite StrFacts.app_assoc | by constructor].
  - intros [(t & -> & Ht)%IH1|(t & -> & Ht)%IH2]%elem_of_app;
      exists t; (split; [done|]); by constructor.
  - intros [(t & -> & Ht)%IH| ->%list_elem_of_singleton]%elem_of_app.
    + exists t. split; [done | by constructor].
    + exists "". split; [done | constructor].
  - by apply plus_loop_matches.
  - revert s. induction n as [|n IHn]; intros s.
    + intros ->%list_elem_of_singleton. exists "". split; [done | constructor].
    + intros (s1 & (t2 & -> & Ht2)%IHn & (t1 & -> & Ht1)%IH)%list_elem_of_bind.
      exists (t1 +:+ t2). split; [by rewrite StrFacts.app_assoc | by constructor].
  - intros (t & -> & Ht)%IH. exists t. split; [done | by constructor].
Qed.

Lemma match_at_matches (r : regex) (s rest : string) :
  match_at r s = Some rest ->
  exists tok, s = tok +:+ rest /\ matches r tok /\ take (len s - len rest) s = tok.
Proof.
  unfold match_at. intros Hhd.
  destruct (ends_matches r s rest) as (tok & -> & Htok).
  { destruct (ends r s); [discriminate Hhd|]. injection Hhd as ->. left. }
  exists tok. split_and!; [done | done |].
  rewrite StrFacts.len_app.
  replace (len tok + len rest - len rest)%nat with (len tok) by lia.
  apply StrFacts.take_app.
Qed.

Lemma scan_matches (fuel : nat) (r : regex) (s tok : string) :
  tok ∈ scan fuel r s -> matches r tok.
Proof.
  revert s. induction fuel as [|fuel IH]; intros s; cbn [scan].
  - by intros ?%elem_of_nil.
  - destruct (match_at r s) as [rest|] eqn:Hm.
    + apply match_at_matches in Hm as (t & Hs & Ht & ->).
      intros [->|Hin]%elem_of_cons; [done|].
      destruct (decide _); [by eapply IH|].
      destruct s; [by apply elem_of_nil in Hin | by eapply IH].
    + destruct s; [by intros ?%elem_of_nil | by apply IH].
Qed.

Lemma scan_scattered (fuel : nat) (r : regex) (s : string) :
  scattered (scan fuel r s) s.
Proof.
  revert s. induction fuel as [|fuel IH]; intros s; cbn [scan]; [constructor|].
  destruct (match_at r s) as [rest|] eqn:Hm.
  - apply match_at_matches in Hm as (t & Hs & Ht & Htake). rewrite Htake.
    destruct (decide _) as [Hlt|Hge].
    + rewrite Hs. constructor. apply IH.
    + assert (t = "") as ->.
      { rewrite Hs, StrFacts.len_app in Hge. destruct t; [done | simpl in *; lia]. }
      apply (scattered_tok "" _ s).
      destruct s; [constructor | constructor; apply IH].
  - destruct s; [constructor | constructor; apply IH].
Qed.

Lemma matches_not_close_plus (t : string) :
  matches (Plus (Class true [("]", "]")]%char)) t ->
  exists c body, t = String c body /\ not_close c = true /\ no_close body = true.
Proof.
  remember (Plus (Class true [("]", "]")]%char)) as r eqn:Hr. intros Hm.
  induction Hm as [| | | | | | |r0 t Ht|r0 t1 t2 Ht1 _ Ht2 IH| | |]; try discriminate Hr.
  - injection Hr as ->. inversion Ht as [|? ? c Hc| | | | | | | | | |]; subst.
    rewrite not_close_class in Hc. by exists c, "".
  - injection Hr as ->. destruct (IH eq_refl) as (c2 & body & -> & Hc2 & Hbody).
    inversion Ht1 as [|? ? c Hc| | | | | | | | | |]; subst.
    rewrite not_close_class in Hc. exists c, (String c2 body).
    split_and!; [done | done |]. simpl. by rewrite Hc2, Hbody.
Qed.

Ltac invert_matches :=
  repeat match goal with
    | H : matches (Plus (Class true _)) _ |- _ =>
        apply matches_not_close_plus in H as (? & ? & -> & ? & ?)
    | H : matches (Group _) _ |- _ => inversion H; subst; clear H
    | H : matches (Alt _ _) _ |- _ => inversion H; subst; clear H
    | H : matches (Cat _ _) _ |- _ => inversion H; subst; clear H
    | H : matches (Lit _) _ |- _ => inversion H; subst; clear H
    | H : matches (Opt _) _ |- _ => inversion H; subst; clear H
    | H : matches (Rep _ _) _ |- _ => inversion H; subst; clear H
    | H : matches (Class false _) _ |- _ => inversion H; subst; clear H
    end.

Lemma lexeme_not_hash : ~ lexeme "#".
Proof.
  intros Hlex. inversion Hlex as [|l Hin| |d Hd].
  - unfold fixed_lexemes in Hin.
    repeat (apply elem_of_cons in Hin as [Heq|Hin]; [discriminate Heq|]).
    by apply elem_of_nil in Hin.
  - discriminate Hd.
Qed.

Lemma scattered_len (toks : list string) (s : string) :
  scattered toks s -> (len (join "" toks) <= len s)%nat.
Proof.
  induction 1 as [s|c toks s _ IH|tok toks s _ IH].
  - simpl. lia.
  - simpl in *. lia.
  - rewrite join_empty_cons, !StrFacts.len_app. lia.
Qed.

(** A match of the tokenizer pattern is a lexeme. *)
Lemma matches_lexeme (tok : string) : matches SMI_REGEX tok -> lexeme tok.
Proof.
  unfold SMI_REGEX, digit. cbn [alts]. intros Hm. invert_matches;
    cbv [String.append];
    first [ by apply lexeme_bracket
          | by apply lexeme_ring
          | by apply lexeme_digit
          | apply lexeme_fixed; unfold fixed_lexemes;
            repeat first [apply list_elem_of_here | apply list_elem_of_further] ].
Qed.

(** X1: every token that [tokenize] returns, whatever the text, is a lexeme
    of the pattern: a bracket atom, one of the fixed strings, [%] with two
    digits, or a digit; no token is empty. *)
Theorem tokenize_tokens_are_lexemes (text tok : string) :
  tok ∈ BasicSmilesTokenizer.tokenize BasicSmilesTokenizer.default text ->
  lexeme tok /\ tok <> "".
Proof.
  intros Hin. apply scan_matches, matches_lexeme in Hin.
  split; [done|]. intros ->. by apply lexeme_nonempty in Hin.
Qed.

Lemma tokenize_tokens_are_lexemes_witness :
  "Br" ∈ BasicSmilesTokenizer.tokenize BasicSmilesTokenizer.default "CBr?"
  /\ lexeme "Br" /\ "Br" <> "".
Proof.
  assert ("Br" ∈ BasicSmilesTokenizer.tokenize BasicSmilesTokenizer.default "CBr?")
    as Hin by (vm_compute; apply list_elem_of_further, list_elem_of_here).
  split; [done|]. by apply (tokenize_tokens_are_lexemes "CBr?").
Defined.

(** X2: with the default pattern, for every text the tokens lie in the text
    in the order returned and without overlap: the text is the tokens with
    the skipped characters before, between and after them, so the tokens
    together are never longer than the text. *)
Theorem tokenize_scattered (text : string) :
  scattered (BasicSmilesTokenizer.tokenize BasicSmilesTokenizer.default text) text
  /\ (len (join "" (BasicSmilesTokenizer.tokenize BasicSmilesTokenizer.default text))
      <= len text)%nat.
Proof.
  assert (scattered (BasicSmilesTokenizer.tokenize BasicSmilesTokenizer.default text) text)
    as Hsc by apply scan_scattered.
  split; [done | by apply scattered_len].
Qed.

(** X3: the tokens joined back give the text exactly when the text is
    lexemes of the pattern one after the other; on any other text some
    character is skipped. *)
Theorem tokenize_lossless_iff (text : string) :
  join "" (BasicSmilesTokenizer.tokenize BasicSmilesTokenizer.default text) = text
  <-> covered text.
Proof.
  split; [|apply tokenize_covered].
  intros Heq. rewrite <- Heq. apply covered_join, List.Forall_forall.
  intros tok Hin%list_elem_of_In. by apply scan_matches, matches_lexeme in Hin.
Qed.

Lemma tokenize_lossless_iff_witness :
  covered "C(=O)Cl"
  /\ join "" (BasicSmilesTokenizer.tokenize BasicSmilesTokenizer.default "C(=O)Cl")
     = "C(=O)Cl".
Proof.
  assert (covered "C(=O)Cl") as Hcov.
  { apply (proj1 (tokenize_lossless_iff "C(=O)Cl")). vm_compute. reflexivity. }
  split; [done|]. by apply (proj2 (tokenize_lossless_iff "C(=O)Cl")).
Defined.

(** X4: the tokenizer never returns the token "#", whatever the text: a
    triple bond written [#] is always among the skipped characters. *)
Theorem tokenize_never_hash (text : string) :
  "#" ∉ BasicSmilesTokenizer.tokenize BasicSmilesTokenizer.default text.
Proof.
  intros Hin. apply scan_matches, matches_lexeme in Hin.
  by apply lexeme_not_hash.
Qed.

End tokens.

(** ** What [load_vocab] keeps of a file *)

Section vocabulary.
Import SmilesTokenizer OrderedDict OrderedDictFacts.

Lemma last_line_Some (tok : string) (tokens : list string) (j : nat) :
  last_line tok tokens = Some j <->
  exists line, tokens !! j = Some line /\ rstrip NL line = tok
               /\ forall j' line', (j < j')%nat -> tokens !! j' = Some line' ->
                                   rstrip NL line' <> tok.
Proof.
  revert j. induction tokens as [|token tokens IH]; intros j; simpl.
  - split; [done | by intros (? & ? & _)].
  - destruct (last_line tok tokens) as [k|] eqn:Hk.
    + split.
      * intros [= <-]. destruct (proj1 (IH k) eq_refl) as (line & Hline & Htok & Hlater).
        exists line. split_and!; [done | done |].
        intros [|j'] line' Hlt; [lia|]. simpl. apply Hlater. lia.
      * intros (line & Hline & Htok & Hlater). destruct j as [|j].
        -- destruct (proj1 (IH k) eq_refl) as (line' & Hline' & Htok' & _).
           exfalso. by apply (Hlater (S k) line'); [lia | |].
        -- assert (Some k = Some j) as [= ->]; [|done].
           apply IH. exists line. split_and!; [done | done |].
           intros j' line' Hlt Hj'. apply (Hlater (S j') line'); [lia | done].
    + assert (forall j' line', tokens !! j' = Some line' -> rstrip NL line' <> tok)
        as Hnone.
      { intros j' line' Hj' Htok.
        assert (exists m, last_line tok tokens = Some m) as [m Hm]; [|congruence].
        clear IH Hk. revert j' Hj'.
        induction tokens as [|t tokens IHt]; intros j' Hj'; [done|]. simpl.
        destruct j' as [|j']; simpl in Hj'.
        - injection Hj' as ->. destruct (last_line tok tokens); [by eexists|].
          rewrite decide_True by done. by eexists.
        - destruct (IHt j' Hj') as [m ->]. by eexists. }
      destruct (decide (rstrip NL token = tok)) as [Heq|Hne].
      * split.
        -- intros [= <-]. exists token. split_and!; [done | done |].
           intros [|j'] line' Hlt; [lia|]. simpl. apply Hnone.
        -- intros (line & Hline & Htok & _). destruct j as [|j]; [done|].
           exfalso. by apply (Hnone j line).
      * split; [done|]. intros (line & Hline & Htok & _). destruct j as [|j].
        -- simpl in Hline. congruence.
        -- exfalso. by apply (Hnone j line).
Qed.

Lemma keys_vocab_foldl (tokens : list string) (start : Z) (d : OrderedDict.t string Z) :
  keys (foldl (fun vocab '(index, token) =>
                 let token := rstrip NL token in set vocab token index)
              d (enumerate_from start tokens))
  = keys d ++ first_seen (keys d) (rstrip NL <$> tokens).
Proof.
  revert start d. induction tokens as [|token tokens IH]; intros start d; simpl.
  - by rewrite app_nil_r.
  - rewrite IH. destruct (decide (rstrip NL token ∈ keys d)) as [Hin|Hnin].
    + by rewrite keys_set_old.
    + rewrite keys_set_fresh by done. by rewrite <- app_assoc.
Qed.

Lemma keys_vocab_of_lines (tokens : list string) :
  keys (vocab_of_lines tokens) = first_seen [] (rstrip NL <$> tokens).
Proof. unfold vocab_of_lines, enumerate. by rewrite keys_vocab_foldl. Qed.

Lemma elem_of_first_seen (seen l : list string) (x : string) :
  x ∈ first_seen seen l <-> x ∈ l /\ x ∉ seen.
Proof.
  revert seen. induction l as [|y l IH]; intros seen; simpl.
  - split; [by intros ?%elem_of_nil | by intros [?%elem_of_nil _]].
  - destruct (decide (y ∈ seen)) as [Hy|Hy].
    + rewrite IH, elem_of_cons. split; [by intros [? ?]; auto|].
      intros [[->|?] ?]; done.
    + rewrite !elem_of_cons, IH, elem_of_app, list_elem_of_singleton.
      split.
      * intros [->|[? ?]]; [by auto|]. split; [by right | tauto].
      * intros [[->|?] ?]; [by left|]. destruct (decide (x = y)); [by left|].
        right. split; [done|]. tauto.
Qed.

Lemma length_first_seen (seen l : list string) :
  (length (first_seen seen l) <= length l)%nat
  /\ (length (first_seen seen l) = length l -> NoDup l).
Proof.
  revert seen. induction l as [|y l IH]; intros seen; simpl.
  - split; [lia | intros _; apply NoDup_nil_2].
  - destruct (IH seen) as [Hle _]. destruct (IH (seen ++ [y])) as [Hle' Hnd'].
    destruct (decide (y ∈ seen)); simpl; [split; lia|].
    split; [lia|]. intros [= Hlen]. apply NoDup_cons. split; [|by apply Hnd'].
    intros Hy.
    assert (first_seen (seen ++ [y]) l ⊆ filter (fun x => x ≠ y) l) as Hsub.
    { intros x [Hx Hnin]%elem_of_first_seen. apply list_elem_of_filter.
      split; [|done]. intros ->. apply Hnin, elem_of_app. right. left. }
    assert (NoDup (first_seen (seen ++ [y]) l)) as Hnodup.
    { clear. generalize (seen ++ [y]). induction l as [|z l IHl]; intros sn; simpl.
      - apply NoDup_nil_2.
      - destruct (decide (z ∈ sn)); [apply IHl|].
        apply NoDup_cons. split; [|apply IHl].
        intros [_ Hz]%elem_of_first_seen. apply Hz, elem_of_app. right. left. }
    apply NoDup_submseteq in Hsub; [|done]. apply submseteq_length in Hsub.
    assert (length (filter (fun x => x ≠ y) l) < length l)%nat; [|lia].
    clear -Hy. induction l as [|z l IHl]; [by apply elem_of_nil in Hy|].
    rewrite filter_cons. destruct (decide (z ≠ y)) as [Hz|Hz]; simpl.
    + apply elem_of_cons in Hy as [->|Hy]; [done|]. specialize (IHl Hy). lia.
    + pose proof (length_filter (fun x => x ≠ y) l). lia.
Qed.

Lemma NoDup_values (d : OrderedDict.t string Z) :
  NoDup (keys d) ->
  (forall k1 k2 v, (k1, v) ∈ items d -> (k2, v) ∈ items d -> k1 = k2) ->
  NoDup (values d).
Proof.
  unfold keys, values, items. induction d as [|[k v] d IH]; simpl; intros Hnd Hinj.
  - apply NoDup_nil_2.
  - apply NoDup_cons in Hnd as [Hk Hnd]. apply NoDup_cons. split.
    + intros Hv. apply list_elem_of_fmap in Hv as ([k' v'] & Hv & Hin).
      simpl in Hv. subst v'. apply Hk.
      rewrite (Hinj k k' v); [|left|by right].
      apply list_elem_of_fmap. by exists (k', v).
    + apply IH; [done|]. intros k1 k2 v0 H1 H2. apply (Hinj k1 k2 v0); by right.
Qed.

Lemma NoDup_values_vocab_of_lines (tokens : list string) :
  NoDup (values (vocab_of_lines tokens)).
Proof.
  apply NoDup_values; [apply NoDup_keys_vocab_of_lines|].
  intros k1 k2 v H1 H2.
  apply elem_of_get in H1; [|apply NoDup_keys_vocab_of_lines].
  apply elem_of_get in H2; [|apply NoDup_keys_vocab_of_lines].
  rewrite vocab_of_lines_last_line in H1, H2.
  destruct (last_line k1 tokens) as [j1|] eqn:Hj1; [|done].
  destruct (last_line k2 tokens) as [j2|] eqn:Hj2; [|done].
  simpl in H1, H2. assert (j1 = j2) as -> by (simplify_eq; lia).
  apply last_line_Some in Hj1 as (l1 & Hl1 & <- & _).
  apply last_line_Some in Hj2 as (l2 & Hl2 & <- & _). congruence.
Qed.

Lemma mem_cons (c a : ascii) (s : string) :
  mem c (String a s) = Ascii.eqb c a || mem c s.
Proof. reflexivity. Qed.

Lemma mem_app (c : ascii) (s1 s2 : string) :
  mem c (s1 +:+ s2) = mem c s1 || mem c s2.
Proof.
  induction s1 as [|a s1 IH]; [done|].
  by rewrite StrFacts.app_cons, !mem_cons, IH, orb_assoc.
Qed.

Lemma rstrip_no_LF (body : string) : mem LF body = false -> rstrip NL body = body.
Proof.
  unfold rstrip. induction body as [|a body IH]; [done|].
  rewrite mem_cons. intros [Ha Hbody]%orb_false_elim. cbn [rstrip_by].
  rewrite IH by done. destruct body; [|done].
  unfold NL. rewrite mem_cons, Ascii.eqb_sym, Ha. done.
Qed.

Lemma rstrip_line (body : string) :
  mem LF body = false -> rstrip NL (body +:+ NL) = body.
Proof.
  intros Hbody. unfold rstrip. rewrite rstrip_by_app by done.
  by apply rstrip_no_LF.
Qed.

Lemma universal_newlines_no_CR (s : string) : mem CR (universal_newlines s) = false.
Proof.
  remember (len s) as n eqn:Hn. revert s Hn.
  induction n as [n IH] using lt_wf_ind. intros [|c s] Hn; [done|].
  cbn [universal_newlines]. destruct (Ascii.eqb_spec c CR) as [->|Hc].
  - rewrite mem_cons. simpl (Ascii.eqb CR LF). simpl orb.
    destruct s as [|c' s]; [done|].
    destruct (Ascii.eqb c' LF).
    + apply (IH (len s)); [simpl in *; lia | done].
    + apply (IH (len (String c' s))); [simpl in *; lia | done].
  - rewrite mem_cons. rewrite (IH (len s)) by (simpl in *; lia || done).
    destruct (Ascii.eqb_spec CR c); [congruence | done].
Qed.

(** A line is a text without line feed, followed by one line feed unless it
    is the last line. *)
Lemma split_keepends_line (s l : string) :
  l ∈ split_keepends s ->
  exists body, mem LF body = false
               /\ (l = body +:+ NL \/ l = body)
               /\ forall c, mem c body = true -> mem c s = true.
Proof.
  revert l. induction s as [|c s IH]; intros l; cbn [split_keepends].
  - by intros ?%elem_of_nil.
  - destruct (Ascii.eqb_spec c LF) as [->|Hc].
    + intros [->|Hin]%elem_of_cons.
      * exists "". split_and!; [done | by left | done].
      * destruct (IH l Hin) as (body & Hbody & Hl & Hsub). exists body.
        split_and!; [done | done |]. intros c Hcb. rewrite mem_cons, (Hsub c Hcb).
        by rewrite orb_true_r.
    + destruct (split_keepends s) as [|l0 ls] eqn:Hs.
      * intros ->%list_elem_of_singleton. exists (String c "").
        split_and!; [|by right|].
        -- rewrite mem_cons. destruct (Ascii.eqb_spec LF c); [congruence | done].
        -- intros a. rewrite !mem_cons. intros [->|Ha]%orb_prop; [done | discriminate Ha].
      * intros [->|Hin]%elem_of_cons.
        -- destruct (IH l0 (list_elem_of_here _ _)) as (body & Hbody & Hl & Hsub).
           exists (String c body). split_and!.
           ++ rewrite mem_cons, Hbody.
              destruct (Ascii.eqb_spec LF c); [congruence | done].
           ++ destruct Hl as [-> | ->]; [by left | by right].
           ++ intros a. rewrite !mem_cons. intros [->|Ha%Hsub]%orb_prop; [done|].
              by rewrite Ha, orb_true_r.
        -- destruct (IH l (list_elem_of_further _ _ _ Hin))
             as (body & Hbody & Hl & Hsub).
           exists body. split_and!; [done | done |]. intros a Ha.
           by rewrite mem_cons, (Hsub a Ha), orb_true_r.
Qed.

(** The object a successful construction returns. *)
Lemma init_inr (fs : filesystem) (super_ : BertTokenizer) (vocab_file : string)
    (self : SmilesTokenizer.t) :
  __init__ fs super_ vocab_file = inr self ->
  exists content,
    fs vocab_file = Some content
    /\ vocab self = vocab_of_lines (readlines content)
    /\ ids_to_tokens self = of_list (swapped_items (vocab self))
    /\ SmilesTokenizer.super self = super_
    /\ basic_tokenizer self = BasicSmilesTokenizer.default
    /\ max (unused_indices (vocab self)) = inr (highest_unused_index self)
    /\ max_len_single_sentence self = max_len super_ - 2
    /\ max_len_sentences_pair self = max_len super_ - 3.
Proof.
  unfold __init__, load_vocab. rewrite BasicSmilesTokenizer_default.
  destruct (negb (isfile fs vocab_file)); [done|].
  destruct (fs vocab_file) as [content|]; [|done].
  destruct (max _) as [e|highest] eqn:Hmax; [done|].
  intros [= <-]. exists content. by split_and!.
Qed.

(** X5: in the vocabulary [load_vocab] returns, a token has the index of the
    last line that reads it: a token and an id are an entry exactly when
    the id is the index of a line with that text and no later line has the
    same text. *)
Theorem load_vocab_last_line (fs : filesystem) (vocab_file content : string) :
  fs vocab_file = Some content ->
  exists vocab,
    load_vocab fs vocab_file = inr vocab
    /\ forall tok i,
         get vocab tok = Some i <->
         exists (j : nat) line,
           i = Z.of_nat j
           /\ readlines content !! j = Some line /\ rstrip NL line = tok
           /\ forall (j' : nat) line',
                (j < j')%nat -> readlines content !! j' = Some line' ->
                rstrip NL line' <> tok.
Proof.
  intros Hfs. unfold load_vocab. rewrite Hfs. eexists. split; [done|].
  intros tok i. rewrite vocab_of_lines_last_line. split.
  - destruct (last_line tok _) as [j|] eqn:Hj; [|done]. intros [= <-].
    apply last_line_Some in Hj as (line & ? & ? & ?). by exists j, line.
  - intros (j & line & -> & Hline & Htok & Hlater).
    assert (last_line tok (readlines content) = Some j) as ->; [|done].
    apply last_line_Some. by exists line.
Qed.

Lemma load_vocab_last_line_witness :
  exists vocab, load_vocab twice_fs "vocab.txt" = inr vocab
                /\ get vocab "C" = Some 1.
Proof.
  destruct (load_vocab_last_line twice_fs "vocab.txt" _ eq_refl)
    as (vocab & Hload & Hget).
  exists vocab. split; [done|]. apply Hget. exists 1%nat, ("C" +:+ NL).
  split_and!; [done | done | done |].
  intros [|[|[|j']]] line' Hlt Hline; simpl in Hline; (lia || discriminate Hline).
Defined.

(** X6: [vocab_list] of a constructed tokenizer is the distinct lines of the
    vocabulary file, without their line ends, in the order of their first
    occurrence; so no token is listed twice, and [vocab_size] is at most the
    number of lines, and equal to it exactly when no line repeats. *)
Theorem vocab_list_first_seen (fs : filesystem) (super_ : BertTokenizer)
    (vocab_file content : string) (self : SmilesTokenizer.t) :
  fs vocab_file = Some content ->
  __init__ fs super_ vocab_file = inr self ->
  let lines := rstrip NL <$> readlines content in
  vocab_list self = first_seen [] lines
  /\ NoDup (vocab_list self)
  /\ (forall tok, tok ∈ vocab_list self <-> tok ∈ lines)
  /\ vocab_size self = length (vocab_list self)
  /\ (vocab_size self <= length lines)%nat
  /\ (vocab_size self = length lines <-> NoDup lines).
Proof.
  intros Hfs (content' & Hfs' & Hvocab & _)%init_inr lines.
  assert (content' = content) as -> by congruence.
  unfold vocab_list, vocab_size, size. rewrite Hvocab.
  assert (length (vocab_of_lines (readlines content))
          = length (keys (vocab_of_lines (readlines content)))) as Hlen
    by (unfold keys; by rewrite length_fmap).
  rewrite Hlen, keys_vocab_of_lines. fold lines.
  destruct (length_first_seen [] lines) as [Hle Hnd].
  split_and!; [done | | | done | done |].
  - unfold lines. rewrite <- keys_vocab_of_lines. apply NoDup_keys_vocab_of_lines.
  - intros tok. rewrite elem_of_first_seen. split; [by intros [? _]|].
    intros ?. split; [done | apply not_elem_of_nil].
  - split; [done|]. intros Hnodup.
    unfold lines in *. rewrite <- keys_vocab_of_lines.
    rewrite vocab_of_lines_distinct by done. unfold keys, enumerate.
    by rewrite entry_keys.
Qed.

Lemma vocab_list_first_seen_witness :
  vocab_list example_self = first_seen [] (rstrip NL <$> readlines example_file)
  /\ vocab_size example_self = 20%nat.
Proof.
  destruct (vocab_list_first_seen example_fs example_super "vocab.txt" example_file
              example_self eq_refl)
    as (Hlist & _ & _ & Hsize & _); [vm_compute; reflexivity|].
  split; [done|]. rewrite Hsize, Hlist. vm_compute. reflexivity.
Defined.

(** X7: the ids of a loaded vocabulary are pairwise distinct and each is the
    index of a line of the file, so it lies in 0..N-1 for a file of N
    lines. *)
Theorem load_vocab_ids (fs : filesystem) (vocab_file content : string) :
  fs vocab_file = Some content ->
  exists vocab,
    load_vocab fs vocab_file = inr vocab
    /\ NoDup (values vocab)
    /\ forall i, i ∈ values vocab ->
                 0 <= i < Z.of_nat (length (readlines content)).
Proof.
  intros Hfs. unfold load_vocab. rewrite Hfs. eexists. split; [done|].
  split; [apply NoDup_values_vocab_of_lines|].
  intros i Hi. unfold values in Hi. apply list_elem_of_fmap in Hi as ([tok i'] & -> & Hin).
  apply elem_of_get in Hin; [|apply NoDup_keys_vocab_of_lines].
  rewrite vocab_of_lines_last_line in Hin. simpl.
  destruct (last_line tok _) as [j|] eqn:Hj; [|done]. injection Hin as <-.
  apply last_line_Some in Hj as (line & Hline%lookup_lt_Some & _). lia.
Qed.

Lemma load_vocab_ids_witness :
  exists vocab, load_vocab twice_fs "vocab.txt" = inr vocab
                /\ values vocab = [1].
Proof.
  destruct (load_vocab_ids twice_fs "vocab.txt" _ eq_refl) as (vocab & Hload & _).
  exists vocab. split; [done|].
  vm_compute in Hload. by injection Hload as <-.
Defined.

Lemma readlines_stripped (content l : string) :
  l ∈ readlines content ->
  mem LF (rstrip NL l) = false /\ mem CR (rstrip NL l) = false.
Proof.
  intros (body & Hbody & Hl & Hsub)%split_keepends_line.
  assert (rstrip NL l = body) as ->.
  { destruct Hl as [-> | ->]; [by apply rstrip_line | by apply rstrip_no_LF]. }
  split; [done|]. destruct (mem CR body) eqn:HCR; [|done].
  apply Hsub in HCR. by rewrite universal_newlines_no_CR in HCR.
Qed.

(** X8: no token of a loaded vocabulary contains a line feed or a carriage
    return: every token is the text of one line. *)
Theorem load_vocab_tokens_one_line (fs : filesystem) (vocab_file content : string) :
  fs vocab_file = Some content ->
  exists vocab,
    load_vocab fs vocab_file = inr vocab
    /\ forall tok, tok ∈ keys vocab -> mem LF tok = false /\ mem CR tok = false.
Proof.
  intros Hfs. unfold load_vocab. rewrite Hfs. eexists. split; [done|].
  intros tok. rewrite keys_vocab_of_lines.
  intros [(l & -> & Hl)%list_elem_of_fmap _]%elem_of_first_seen.
  by apply readlines_stripped with content.
Qed.

Lemma load_vocab_tokens_one_line_witness :
  exists vocab,
    load_vocab (fun _ => Some ("C" +:+ String CR (String LF "O") +:+ String CR "N"))
               "vocab.txt" = inr vocab
    /\ keys vocab = ["C"; "O"; "N"]
    /\ forall tok, tok ∈ keys vocab -> mem LF tok = false /\ mem CR tok = false.
Proof.
  destruct (load_vocab_tokens_one_line
              (fun _ => Some ("C" +:+ String CR (String LF "O") +:+ String CR "N"))
              "vocab.txt" _ eq_refl) as (vocab & Hload & Hclean).
  exists vocab. split_and!; [done | | done].
  vm_compute in Hload. by injection Hload as <-.
Defined.

End vocabulary.

(** ** The constructed tokenizer *)

Section constructed.
Import SmilesTokenizer OrderedDict OrderedDictFacts.

Lemma elem_of_enumerate_from {A : Type} (l : list A) (start i : Z) (x : A) :
  (i, x) ∈ enumerate_from start l <->
  exists j : nat, i = start + Z.of_nat j /\ l !! j = Some x.
Proof.
  revert start. induction l as [|y l IH]; intros start; simpl.
  - split; [by intros ?%elem_of_nil | by intros (? & _ & ?)].
  - rewrite elem_of_cons, IH. split.
    + intros [[= -> ->]|(j & -> & Hj)].
      * exists 0%nat. split; [lia | done].
      * exists (S j). split; [lia | done].
    + intros ([|j] & -> & Hj); simpl in Hj.
      * left. injection Hj as ->. f_equal. lia.
      * right. exists j. split; [lia | done].
Qed.

Lemma elem_of_unused_indices (vocab : OrderedDict.t string Z) (i : Z) :
  i ∈ unused_indices vocab <->
  exists (j : nat) tok,
    i = Z.of_nat j /\ keys vocab !! j = Some tok /\ startswith "[unused" tok = true.
Proof.
  unfold unused_indices, enumerate. rewrite list_elem_of_fmap. split.
  - intros ([i' tok] & -> & Hin). apply list_elem_of_In, filter_In in Hin as [Hin Htok].
    apply list_elem_of_In, elem_of_enumerate_from in Hin as (j & -> & Hj).
    exists j, tok. split_and!; [simpl; lia | done | done].
  - intros (j & tok & -> & Hj & Htok). exists (Z.of_nat j, tok). split; [done|].
    apply list_elem_of_In, filter_In. split; [|done].
    apply list_elem_of_In, elem_of_enumerate_from. exists j. split; [lia | done].
Qed.

Lemma foldl_max (l : list Z) (x : Z) :
  (foldl Z.max x l = x \/ foldl Z.max x l ∈ l)
  /\ x <= foldl Z.max x l
  /\ forall y, y ∈ l -> y <= foldl Z.max x l.
Proof.
  revert x. induction l as [|z l IH]; intros x; simpl.
  - split_and!; [by left | lia | by intros y ?%elem_of_nil].
  - destruct (IH (Z.max x z)) as (Hin & Hle & Hall). split_and!.
    + destruct Hin as [Heq|Hin]; [|right; by right].
      rewrite Heq. destruct (Z.max_spec x z) as [[_ ->]|[_ ->]]; [right; left | by left].
    + lia.
    + intros y [->|Hy]%elem_of_cons; [lia | by apply Hall].
Qed.

Lemma max_inr (l : list Z) (m : Z) :
  max l = inr m -> m ∈ l /\ forall y, y ∈ l -> y <= m.
Proof.
  destruct l as [|x l]; [done|]. simpl. intros [= <-].
  destruct (foldl_max l x) as (Hin & Hle & Hall). split.
  - destruct Hin as [->|Hin]; [left | by right].
  - intros y [->|Hy]%elem_of_cons; [done | by apply Hall].
Qed.

(** X9: [highest_unused_index] of a constructed tokenizer is the position in
    [vocab_list] of the last token that starts with "[unused": a token at
    that position starts with it and no token at a later position does. *)
Theorem highest_unused_index_last (fs : filesystem) (super_ : BertTokenizer)
    (vocab_file : string) (self : SmilesTokenizer.t) :
  __init__ fs super_ vocab_file = inr self ->
  exists (j : nat) tok,
    highest_unused_index self = Z.of_nat j
    /\ vocab_list self !! j = Some tok
    /\ startswith "[unused" tok = true
    /\ forall (j' : nat) tok',
         vocab_list self !! j' = Some tok' -> startswith "[unused" tok' = true ->
         (j' <= j)%nat.
Proof.
  intros (content & _ & _ & _ & _ & _ & Hmax & _)%init_inr.
  apply max_inr in Hmax as [Hin Hall].
  apply elem_of_unused_indices in Hin as (j & tok & Hj & Htok & Hpre).
  exists j, tok. split_and!; [done | done | done |].
  intros j' tok' Hj' Hpre'.
  assert (Z.of_nat j' <= highest_unused_index self); [|lia].
  apply Hall, elem_of_unused_indices. by exists j', tok'.
Qed.

Lemma highest_unused_index_last_witness :
  exists (j : nat) tok,
    highest_unused_index example_self = Z.of_nat j
    /\ vocab_list example_self !! j = Some tok
    /\ startswith "[unused" tok = true.
Proof.
  destruct (highest_unused_index_last example_fs example_super "vocab.txt" example_self)
    as (j & tok & Hj & Htok & Hpre & _); [vm_compute; reflexivity|].
  by exists j, tok.
Defined.

Lemma foldl_set_fresh {K V : Type} `{EqDecision K} (l d : list (K * V)) :
  NoDup (keys d ++ l.*1) ->
  foldl (fun d kv => set d kv.1 kv.2) d l = d ++ l.
Proof.
  revert d. induction l as [|[k v] l IH]; intros d Hnd; simpl.
  - by rewrite app_nil_r.
  - simpl in Hnd. apply NoDup_app in Hnd as Hnd'. destruct Hnd' as (_ & Hdisj & _).
    assert (k ∉ keys d) as Hk by (intros Hin; apply (Hdisj _ Hin); left).
    rewrite set_fresh by done. rewrite IH; [by rewrite <- app_assoc|].
    unfold keys in *. by rewrite fmap_app, <- app_assoc.
Qed.

Lemma of_list_NoDup {K V : Type} `{EqDecision K} (l : list (K * V)) :
  NoDup l.*1 -> of_list l = l.
Proof. intros Hnd. unfold of_list, empty. by rewrite foldl_set_fresh. Qed.

Lemma swapped_items_keys (vocab : OrderedDict.t string Z) :
  (swapped_items vocab).*1 = values vocab.
Proof.
  unfold swapped_items, values, items. induction vocab as [|[k v] d IH]; [done|].
  simpl. f_equal. apply IH.
Qed.

Lemma ids_to_tokens_inverse_lemma {fs : filesystem} {super_ : BertTokenizer}
    {vocab_file : string} (self : SmilesTokenizer.t) (i : Z) (tok : string) :
  __init__ fs super_ vocab_file = inr self ->
  get (ids_to_tokens self) i = Some tok <-> get (vocab self) tok = Some i.
Proof.
  intros (content & _ & Hvocab & Hrev & _)%init_inr. rewrite Hrev, Hvocab.
  split.
  - apply get_swapped_items, NoDup_keys_vocab_of_lines.
  - intros Hget%get_Some_elem_of. rewrite of_list_NoDup.
    + apply elem_of_get.
      * unfold keys. rewrite swapped_items_keys. apply NoDup_values_vocab_of_lines.
      * unfold items, swapped_items. apply list_elem_of_fmap. by exists (tok, i).
    + rewrite swapped_items_keys. apply NoDup_values_vocab_of_lines.
Qed.

(** X10: in a constructed tokenizer [ids_to_tokens] is the exact inverse of
    the vocabulary: an id maps to a token there exactly when the token maps
    to that id in [vocab]. *)
Theorem ids_to_tokens_inverse (fs : filesystem) (super_ : BertTokenizer)
    (vocab_file : string) (self : SmilesTokenizer.t) (i : Z) (tok : string) :
  __init__ fs super_ vocab_file = inr self ->
  get (ids_to_tokens self) i = Some tok <-> get (vocab self) tok = Some i.
Proof. apply ids_to_tokens_inverse_lemma. Qed.

Lemma ids_to_tokens_inverse_witness :
  get (ids_to_tokens example_self) 16 = Some "C"
  /\ get (vocab example_self) "C" = Some 16.
Proof.
  assert (get (vocab example_self) "C" = Some 16) as Hget by reflexivity.
  split; [|done].
  apply (ids_to_tokens_inverse example_fs example_super "vocab.txt" example_self);
    [vm_compute; reflexivity | done].
Defined.

Lemma convert_back {fs : filesystem} {super_ : BertTokenizer}
    {vocab_file : string} (self : SmilesTokenizer.t) (tok : string) (i : Z) :
  __init__ fs super_ vocab_file = inr self ->
  _convert_token_to_id self tok = Some i ->
  _convert_id_to_token self i
  = if decide (tok ∈ vocab_list self) then tok else unk_token (SmilesTokenizer.super self).
Proof.
  intros Hinit. unfold _convert_token_to_id, _convert_id_to_token, vocab_list.
  destruct (get (vocab self) tok) as [index|] eqn:Hget.
  - intros [= ->].
    rewrite (proj2 (ids_to_tokens_inverse_lemma self i tok Hinit) Hget).
    rewrite decide_True; [done|].
    destruct (decide (tok ∈ keys (vocab self))) as [|Hnin]; [done|].
    apply get_None in Hnin. congruence.
  - intros Hunk.
    rewrite (proj2 (ids_to_tokens_inverse_lemma self i _ Hinit) Hunk).
    rewrite decide_False; [done|]. by apply get_None.
Qed.

(** X11: in a constructed tokenizer, the id [_convert_token_to_id] gives for
    a token goes back through [_convert_id_to_token] to the token itself
    when the token is in the vocabulary, and to the unknown token when it is
    not. *)
Theorem token_id_token_roundtrip (fs : filesystem) (super_ : BertTokenizer)
    (vocab_file : string) (self : SmilesTokenizer.t) (tok : string) (i : Z) :
  __init__ fs super_ vocab_file = inr self ->
  _convert_token_to_id self tok = Some i ->
  _convert_id_to_token self i
  = if decide (tok ∈ vocab_list self) then tok else unk_token (SmilesTokenizer.super self).
Proof. apply convert_back. Qed.

Lemma token_id_token_roundtrip_witness :
  _convert_token_to_id example_self "Q" = Some 11
  /\ _convert_id_to_token example_self 11 = "[UNK]"
  /\ _convert_token_to_id example_self "C" = Some 16
  /\ _convert_id_to_token example_self 16 = "C".
Proof.
  split_and!; [reflexivity | | reflexivity |].
  - apply (token_id_token_roundtrip example_fs example_super "vocab.txt" example_self
             "Q" 11); [vm_compute; reflexivity | reflexivity].
  - apply (token_id_token_roundtrip example_fs example_super "vocab.txt" example_self
             "C" 16); [vm_compute; reflexivity | reflexivity].
Defined.

(** X12: with the unknown token in the vocabulary, a constructed tokenizer
    maps every token of every text to an id that [ids_to_tokens] knows, and
    mapping these ids back gives the tokens of the text with each token
    outside the vocabulary replaced by the unknown token. *)
Theorem tokens_ids_tokens (fs : filesystem) (super_ : BertTokenizer)
    (vocab_file : string) (self : SmilesTokenizer.t) (unk_id : Z) (text : string) :
  __init__ fs super_ vocab_file = inr self ->
  get (vocab self) (unk_token (SmilesTokenizer.super self)) = Some unk_id ->
  exists ids,
    mapM (_convert_token_to_id self) (_tokenize self text) = Some ids
    /\ Forall (fun i => is_Some (get (ids_to_tokens self) i)) ids
    /\ _convert_id_to_token self <$> ids
       = (fun tok => if decide (tok ∈ vocab_list self) then tok
                     else unk_token (SmilesTokenizer.super self))
         <$> BasicSmilesTokenizer.tokenize BasicSmilesTokenizer.default text.
Proof.
  intros Hinit Hunk. unfold _tokenize.
  destruct (init_inr _ _ _ _ Hinit) as (content & _ & _ & _ & _ & -> & _).
  induction (BasicSmilesTokenizer.tokenize BasicSmilesTokenizer.default text)
    as [|tok toks (ids & Hids & Hknown & Hback)].
  - by exists [].
  - assert (exists i, _convert_token_to_id self tok = Some i) as [i Hi].
    { unfold _convert_token_to_id. rewrite Hunk. destruct (get _ tok); eauto. }
    exists (i :: ids). split_and!.
    + apply mapM_Some_2. constructor; [done | by apply mapM_Some_1].
    + constructor; [|done]. pose proof (convert_back self tok i Hinit Hi) as Hb.
      unfold _convert_token_to_id in Hi. rewrite Hunk in Hi.
      destruct (get (vocab self) tok) as [index|] eqn:Hget.
      * injection Hi as ->. exists tok. by apply (ids_to_tokens_inverse_lemma self i tok Hinit).
      * injection Hi as ->. eexists. by apply (ids_to_tokens_inverse_lemma self i _ Hinit).
    + by rewrite !fmap_cons, (convert_back self tok i Hinit Hi), Hback.
Qed.

Lemma tokens_ids_tokens_witness :
  exists ids,
    mapM (_convert_token_to_id example_self) (_tokenize example_self "CN(O)") = Some ids
    /\ _convert_id_to_token example_self <$> ids = ["C"; "[UNK]"; "("; "O"; ")"].
Proof.
  destruct (tokens_ids_tokens example_fs example_super "vocab.txt" example_self 11
              "CN(O)") as (ids & Hids & _ & Hback);
    [vm_compute; reflexivity | reflexivity |].
  exists ids. split; [done|]. rewrite Hback. vm_compute. reflexivity.
Defined.

End constructed.

(** ** Lists of tokens and of ids *)

Module PyListFacts.
Import PyList PyListSpec.
Section facts.
Context {A : Type}.
Implicit Types (h : list (list A)) (l : list A).

Lemma lists_old_refl h : old h h.
Proof. by intros r l. Qed.

Lemma lists_old_trans h1 h2 h3 : old h1 h2 -> old h2 h3 -> old h1 h3.
Proof. intros H12 H23 r l Hr. by apply H23, H12. Qed.

Lemma lists_old_fresh h h' (r : nat) : old h h' -> h' !! r = None -> h !! r = None.
Proof.
  intros Hold Hr. destruct (h !! r) as [l|] eqn:Hl; [|done].
  exfalso. apply Hold in Hl. congruence.
Qed.

Lemma lists_wp_bind {B C : Type} (m : M A B) (k : B -> M A C) h (Q : C -> list (list A) -> Prop) :
  wp m h (fun x h1 => old h h1 -> wp (k x) h1 Q) -> wp (bind m k) h Q.
Proof.
  intros (x & h1 & Hm & Hold1 & HQ). destruct (HQ Hold1) as (y & h2 & Hk & Hold2 & HQ2).
  exists y, h2. unfold bind. rewrite Hm.
  split_and!; [done | by eapply lists_old_trans | done].
Qed.

Lemma lists_wp_new_list l h (Q : nat -> list (list A) -> Prop) :
  (forall r h', h !! r = None -> h' !! r = Some l -> Q r h') ->
  wp (new_list l) h Q.
Proof.
  intros HQ. exists (length h), (h ++ [l]). split_and!.
  - done.
  - intros r l' Hr. by apply lookup_app_l_Some.
  - apply HQ; [by apply lookup_ge_None_2 | by apply list_lookup_middle].
Qed.

Lemma lists_wp_list_add (a b : nat) la lb h (Q : nat -> list (list A) -> Prop) :
  h !! a = Some la -> h !! b = Some lb ->
  (forall r h', h !! r = None -> h' !! r = Some (la ++ lb) -> Q r h') ->
  wp (list_add a b) h Q.
Proof.
  intros Ha Hb HQ.
  destruct (lists_wp_new_list (la ++ lb) h Q HQ) as (x & h' & Hrun & Hold & HQ').
  exists x, h'. split_and!; [|done..].
  unfold list_add, bind, deref. by rewrite Ha, Hb.
Qed.

End facts.
End PyListFacts.

Section more_id_lists.
Import Py PyFacts SmilesTokenizer.

Lemma wp_add_special_tokens_single_sequence (self : SmilesTokenizer.t)
    (h : list (list string)) (tokens : nat) (toks : list string) :
  h !! tokens = Some toks ->
  PyListSpec.wp (add_special_tokens_single_sequence self tokens) h
    (fun r h' => h !! r = None
                 /\ h' !! r = Some ([cls_token (SmilesTokenizer.super self)] ++ toks
                                      ++ [sep_token (SmilesTokenizer.super self)])).
Proof.
  intros Htoks. unfold add_special_tokens_single_sequence.
  apply PyListFacts.lists_wp_bind, PyListFacts.lists_wp_new_list. intros a h1 _ Ha Hold1.
  apply PyListFacts.lists_wp_bind,
    (PyListFacts.lists_wp_list_add _ _ [cls_token (SmilesTokenizer.super self)] toks);
    [done | by apply Hold1 |].
  intros b h2 _ Hb Hold2.
  apply PyListFacts.lists_wp_bind, PyListFacts.lists_wp_new_list. intros c h3 _ Hc Hold3.
  apply (PyListFacts.lists_wp_list_add _ _
           ([cls_token (SmilesTokenizer.super self)] ++ toks)
           [sep_token (SmilesTokenizer.super self)]); [by apply Hold3 | done |].
  intros r h4 Hfresh Hr. split.
  - eapply PyListFacts.lists_old_fresh; [|done].
    eapply PyListFacts.lists_old_trans; [done|]. by eapply PyListFacts.lists_old_trans.
  - by rewrite Hr, <- app_assoc.
Qed.





(** X15: in a constructed tokenizer the two length limits leave room for
    the special tokens: ids within [max_len_single_sentence] wrap to a list
    of at most [max_len] ids, two more than before; a pair within
    [max_len_sentences_pair] wraps to at most [max_len], three more. *)
Theorem wrapped_within_max_len (fs : filesystem) (super_ : BertTokenizer)
    (vocab_file : string) (self : SmilesTokenizer.t) (h : store)
    (token_ids_0 token_ids_1 : ref) (ids_0 ids_1 : list Z) :
  __init__ fs super_ vocab_file = inr self ->
  h !! token_ids_0 = Some ids_0 ->
  h !! token_ids_1 = Some ids_1 ->
  (exists r h' wrapped,
     add_special_tokens_ids_single_sequence self token_ids_0 h = Some (r, h')
     /\ h' !! r = Some wrapped
     /\ List.length wrapped = (List.length ids_0 + 2)%nat
     /\ (Z.of_nat (List.length ids_0) <= max_len_single_sentence self ->
         Z.of_nat (List.length wrapped) <= max_len (SmilesTokenizer.super self)))
  /\ (exists r h' wrapped,
        add_special_tokens_ids_sequence_pair self token_ids_0 token_ids_1 h
        = Some (r, h')
        /\ h' !! r = Some wrapped
        /\ List.length wrapped = (List.length ids_0 + List.length ids_1 + 3)%nat
        /\ (Z.of_nat (List.length ids_0 + List.length ids_1)
            <= max_len_sentences_pair self ->
            Z.of_nat (List.length wrapped) <= max_len (SmilesTokenizer.super self))).
Proof.
  intros (content & _ & _ & _ & -> & _ & _ & Hsingle & Hpair)%init_inr Hids0 Hids1.
  split.
  - destruct (wp_add_special_tokens_ids_single_sequence self h _ _ Hids0)
      as (r & h' & Hrun & _ & _ & Hr).
    eexists r, h', _. split_and!; [done | done | |];
      rewrite !length_app; simpl; lia.
  - destruct (wp_add_special_tokens_ids_sequence_pair self h _ _ _ _ Hids0 Hids1)
      as (r & h' & Hrun & _ & _ & Hr).
    eexists r, h', _. split_and!; [done | done | |];
      rewrite !length_app; simpl; rewrite ?length_app; simpl; lia.
Qed.

Lemma wrapped_within_max_len_witness :
  exists r h' wrapped,
    add_special_tokens_ids_single_sequence example_self 0%nat [[16; 19]] = Some (r, h')
    /\ h' !! r = Some wrapped
    /\ Z.of_nat (List.length wrapped) <= 512.
Proof.
  destruct (wrapped_within_max_len example_fs example_super "vocab.txt" example_self
              [[16; 19]] 0%nat 0%nat [16; 19] [16; 19])
    as [(r & h' & wrapped & Hrun & Hr & _ & Hmax) _];
    [vm_compute; reflexivity | reflexivity | reflexivity |].
  exists r, h', wrapped. split_and!; [done | done |].
  apply Hmax. vm_compute. discriminate.
Defined.

(** X16: [add_special_tokens_single_sequence] returns a new list, the start
    token, the tokens, the end token, and leaves the token list as it was;
    when the two special tokens have the special ids, converting the
    wrapped tokens to ids gives what wrapping the converted ids gives. *)
Theorem add_special_tokens_commute (self : SmilesTokenizer.t)
    (hs : list (list string)) (h : store) (tokens token_ids : nat)
    (toks : list string) (ids : list Z) :
  hs !! tokens = Some toks ->
  h !! token_ids = Some ids ->
  Forall2 (fun tok i => _convert_token_to_id self tok = Some i) toks ids ->
  _convert_token_to_id self (cls_token (SmilesTokenizer.super self))
  = Some (cls_token_id (SmilesTokenizer.super self)) ->
  _convert_token_to_id self (sep_token (SmilesTokenizer.super self))
  = Some (sep_token_id (SmilesTokenizer.super self)) ->
  exists rs hs' wrapped_toks r h' wrapped_ids,
    add_special_tokens_single_sequence self tokens hs = Some (rs, hs')
    /\ hs' !! rs = Some wrapped_toks
    /\ wrapped_toks = [cls_token (SmilesTokenizer.super self)] ++ toks
                        ++ [sep_token (SmilesTokenizer.super self)]
    /\ hs !! rs = None
    /\ hs' !! tokens = Some toks
    /\ add_special_tokens_ids_single_sequence self token_ids h = Some (r, h')
    /\ h' !! r = Some wrapped_ids
    /\ Forall2 (fun tok i => _convert_token_to_id self tok = Some i)
          wrapped_toks wrapped_ids.
Proof.
  intros Htoks Hids Hconv Hcls Hsep.
  destruct (wp_add_special_tokens_single_sequence self hs tokens toks Htoks)
    as (rs & hs' & Hruns & Holds & Hfresh & Hrs).
  destruct (wp_add_special_tokens_ids_single_sequence self h _ _ Hids)
    as (r & h' & Hrun & _ & _ & Hr).
  eexists rs, hs', _, r, h', _.
  split_and!; [done | done | done | done | by apply Holds | done | done |].
  apply Forall2_app; [by constructor|]. apply Forall2_app; [done | by constructor].
Qed.

Lemma add_special_tokens_commute_witness :
  exists rs hs' r h',
    add_special_tokens_single_sequence example_self 0%nat [["C"; "O"]] = Some (rs, hs')
    /\ hs' !! rs = Some ["[CLS]"; "C"; "O"; "[SEP]"]
    /\ add_special_tokens_ids_single_sequence example_self 0%nat [[16; 19]] = Some (r, h')
    /\ h' !! r = Some [12; 16; 19; 13].
Proof.
  destruct (add_special_tokens_commute example_self [["C"; "O"]] [[16; 19]] 0%nat 0%nat
              ["C"; "O"] [16; 19] eq_refl eq_refl)
    as (rs & hs' & wt & r & h' & wi & Hruns & Hrs & -> & _ & _ & Hrun & Hr & Hall);
    [by repeat constructor | reflexivity | reflexivity |].
  exists rs, hs', r, h'. split_and!; [done | done | done |].
  rewrite Hr. vm_compute in Hrun. injection Hrun as <- <-. done.
Defined.

End more_id_lists.

(** ** Saving the vocabulary *)

Section saving.
Import SmilesTokenizer OrderedDict OrderedDictFacts.

Lemma insert_by_value_Permutation (x : string * Z) (l : list (string * Z)) :
  insert_by_value x l ≡ₚ x :: l.
Proof.
  induction l as [|y l IH]; simpl; [done|].
  destruct (x.2 <=? y.2); [done|]. rewrite IH. apply Permutation_swap.
Qed.

Lemma sorted_by_value_Permutation (l : list (string * Z)) : sorted_by_value l ≡ₚ l.
Proof.
  induction l as [|x l IH]; simpl; [done|].
  by rewrite insert_by_value_Permutation, IH.
Qed.

Lemma insert_by_value_Sorted (x : string * Z) (l : list (string * Z)) :
  Sorted by_value l -> Sorted by_value (insert_by_value x l).
Proof.
  induction l as [|y l IH]; simpl; intros Hl.
  - by repeat constructor.
  - destruct (Z.leb_spec x.2 y.2) as [Hle|Hgt].
    + constructor; [done|]. by constructor.
    + apply Sorted_inv in Hl as [Hl Hhd]. constructor; [by apply IH|].
      destruct l as [|z l]; simpl.
      * constructor. unfold by_value. lia.
      * destruct (Z.leb_spec x.2 z.2); constructor; unfold by_value; [lia|].
        by apply HdRel_inv in Hhd.
Qed.

Lemma sorted_by_value_Sorted (l : list (string * Z)) : Sorted by_value (sorted_by_value l).
Proof.
  induction l as [|x l IH]; simpl; [constructor|]. by apply insert_by_value_Sorted.
Qed.

Lemma sorted_by_value_id (l : list (string * Z)) :
  Sorted by_value l -> sorted_by_value l = l.
Proof.
  induction l as [|x l IH]; [done|]. intros [Hl Hhd]%Sorted_inv. simpl.
  rewrite IH by done. destruct l as [|y l]; [done|]. simpl.
  apply HdRel_inv in Hhd. unfold by_value in Hhd.
  by destruct (Z.leb_spec x.2 y.2); [|lia].
Qed.

Lemma save_fold_written (vocab_file : string) (es : list (string * Z))
    (index : Z) (written : string) (log : list string) :
  (foldl (save_step vocab_file) (index, written, log) es).1.2
  = written +:+ lines_text es.*1.
Proof.
  revert index written log. induction es as [|[tok v] es IH]; intros index written log.
  - simpl. by rewrite StrFacts.app_nil_r.
  - cbn [foldl save_step]. destruct (decide (index <> v)); rewrite IH;
      simpl; by rewrite !StrFacts.app_assoc.
Qed.

Lemma save_fold_log (vocab_file : string) (es : list (string * Z))
    (index : Z) (written : string) (log : list string) :
  exists extra,
    (foldl (save_step vocab_file) (index, written, log) es).2 = log ++ extra
    /\ Forall (fun msg => msg = not_consecutive vocab_file) extra
    /\ (length extra <= length es)%nat
    /\ (extra = [] <-> es.*2 = seqZ index (Z.of_nat (length es))).
Proof.
  revert index written log. induction es as [|[tok v] es IH]; intros index written log.
  - exists []. simpl. by rewrite app_nil_r.
  - cbn [foldl save_step]. rewrite seqZ_cons by (simpl; lia).
    replace (Z.pred (Z.of_nat (length ((tok, v) :: es)))) with (Z.of_nat (length es))
      by (simpl; lia).
    destruct (decide (index <> v)) as [Hne|Heq].
    + destruct (IH (v + 1) (written +:+ tok +:+ NL) (log ++ [not_consecutive vocab_file]))
        as (extra & -> & Hall & Hlen & _).
      exists (not_consecutive vocab_file :: extra). split_and!.
      * by rewrite <- app_assoc.
      * by constructor.
      * simpl. lia.
      * split; [done|]. simpl. intros [= Hv _]. congruence.
    + apply dec_stable in Heq. subst v.
      destruct (IH (index + 1) (written +:+ tok +:+ NL) log)
        as (extra & -> & Hall & Hlen & Hiff).
      exists extra. split_and!; [done | done | simpl; lia |]. rewrite Hiff.
      rewrite fmap_cons. simpl snd. replace (Z.succ index) with (index + 1) by lia.
      split; [by intros -> | by intros [= ?]].
Qed.

Lemma vocab_file_name : get VOCAB_FILES_NAMES "vocab_file" = Some "vocab.txt".
Proof. reflexivity. Qed.

Lemma save_vocabulary_eq (self : SmilesTokenizer.t) (vocab_path : string) (os : os_state) :
  save_vocabulary self vocab_path os
  = if os_can_open os (saved_file os vocab_path)
    then inr (saved_file os vocab_path,
              {| os_files := fun path =>
                   if String.eqb path (saved_file os vocab_path)
                   then Some (lines_text (sorted_by_value (items (vocab self))).*1)
                   else os_files os path;
                 os_isdir := os_isdir os;
                 os_can_open := os_can_open os;
                 os_log := (foldl (save_step (saved_file os vocab_path)) (0, "", os_log os)
                                  (sorted_by_value (items (vocab self)))).2 |})
    else inl (OSError (saved_file os vocab_path)).
Proof.
  unfold save_vocabulary, saved_file. rewrite vocab_file_name.
  destruct (os_isdir os vocab_path);
    (match goal with |- context [os_can_open os ?f] => generalize f end; intros file;
     destruct (os_can_open os file); [|done];
     pose proof (save_fold_written file (sorted_by_value (items (vocab self)))
                   0 "" (os_log os)) as Hw;
     destruct (foldl _ _ _) as [[index written] log]; simpl in Hw; by subst written).
Qed.

Lemma save_vocabulary_inr (self : SmilesTokenizer.t) (vocab_path : string) (os : os_state)
    (file : string) (os' : os_state) :
  save_vocabulary self vocab_path os = inr (file, os') ->
  file = saved_file os vocab_path
  /\ os_files os' file = Some (lines_text (sorted_by_value (items (vocab self))).*1)
  /\ os_log os' = (foldl (save_step file) (0, "", os_log os)
                         (sorted_by_value (items (vocab self)))).2.
Proof.
  rewrite save_vocabulary_eq. destruct (os_can_open os _); [|done].
  intros [= <- <-]. simpl. by rewrite String.eqb_refl.
Qed.

(** X17: where the file can be opened, [save_vocabulary] returns its path,
    the path given or [vocab.txt] in the directory given, and leaves in it
    one line per entry of the vocabulary, in ascending order of the ids;
    every other file, the directories and the rights stay as they were. *)
Theorem save_vocabulary_writes (self : SmilesTokenizer.t) (vocab_path : string)
    (os : os_state) :
  os_can_open os (saved_file os vocab_path) = true ->
  exists es os',
    save_vocabulary self vocab_path os = inr (saved_file os vocab_path, os')
    /\ es ≡ₚ items (vocab self)
    /\ Sorted by_value es
    /\ os_files os' (saved_file os vocab_path) = Some (lines_text es.*1)
    /\ (forall path, path <> saved_file os vocab_path ->
                     os_files os' path = os_files os path)
    /\ os_isdir os' = os_isdir os
    /\ os_can_open os' = os_can_open os.
Proof.
  intros Hopen. rewrite save_vocabulary_eq, Hopen.
  eexists (sorted_by_value (items (vocab self))), _. split; [done|].
  split; [apply sorted_by_value_Permutation|].
  split; [apply sorted_by_value_Sorted|]. simpl.
  rewrite String.eqb_refl. split_and!; [done | | done | done].
  intros path Hne. by apply String.eqb_neq in Hne as ->.
Qed.

Lemma save_vocabulary_writes_witness :
  os_can_open example_os (saved_file example_os "out") = true
  /\ exists es os',
       save_vocabulary example_self "out" example_os
       = inr (saved_file example_os "out", os')
       /\ es ≡ₚ items (vocab example_self)
       /\ Sorted by_value es
       /\ os_files os' (saved_file example_os "out") = Some (lines_text es.*1)
       /\ (forall path, path <> saved_file example_os "out" ->
                        os_files os' path = os_files example_os path)
       /\ os_isdir os' = os_isdir example_os
       /\ os_can_open os' = os_can_open example_os.
Proof.
  split; [reflexivity|].
  apply (save_vocabulary_writes example_self "out" example_os). reflexivity.
Defined.

(** X18: every message [save_vocabulary] logs is the warning of line 281
    with the path of the file, there is at most one per entry, and there is
    none exactly when the ids, in ascending order, are 0, 1, 2 and so on. *)
Theorem save_vocabulary_warnings (self : SmilesTokenizer.t) (vocab_path : string)
    (os : os_state) (file : string) (os' : os_state) :
  save_vocabulary self vocab_path os = inr (file, os') ->
  exists extra,
    os_log os' = os_log os ++ extra
    /\ Forall (fun msg => msg = not_consecutive file) extra
    /\ (length extra <= size (vocab self))%nat
    /\ (extra = [] <->
        (sorted_by_value (items (vocab self))).*2
        = seqZ 0 (Z.of_nat (size (vocab self)))).
Proof.
  intros (_ & _ & ->)%save_vocabulary_inr.
  destruct (save_fold_log file (sorted_by_value (items (vocab self))) 0 "" (os_log os))
    as (extra & -> & Hall & Hlen & Hiff).
  rewrite (Permutation_length (sorted_by_value_Permutation _)) in Hlen, Hiff.
  by exists extra.
Qed.

Lemma save_vocabulary_warnings_witness :
  save_vocabulary example_self "out" example_os
  = inr ("out/vocab.txt", os_after_save example_self "out" example_os)
  /\ exists extra,
       os_log (os_after_save example_self "out" example_os) = os_log example_os ++ extra
       /\ Forall (fun msg => msg = not_consecutive "out/vocab.txt") extra
       /\ (length extra <= size (vocab example_self))%nat
       /\ (extra = [] <->
           (sorted_by_value (items (vocab example_self))).*2
           = seqZ 0 (Z.of_nat (size (vocab example_self)))).
Proof.
  split; [reflexivity|].
  apply (save_vocabulary_warnings example_self "out" example_os). reflexivity.
Defined.

Lemma universal_newlines_id (s : string) :
  mem CR s = false -> universal_newlines s = s.
Proof.
  induction s as [|c s IH]; [done|]. rewrite mem_cons.
  intros [Hc Hs]%orb_false_elim. cbn [universal_newlines].
  rewrite Ascii.eqb_sym, Hc. by rewrite IH.
Qed.

Lemma split_keepends_cons_line (body rest : string) :
  mem LF body = false ->
  split_keepends (body +:+ NL +:+ rest) = (body +:+ NL) :: split_keepends rest.
Proof.
  induction body as [|c body IH]; intros Hbody.
  - unfold NL. rewrite !StrFacts.app_nil_l, StrFacts.app_cons, StrFacts.app_nil_l.
    cbn [split_keepends]. by rewrite Ascii.eqb_refl.
  - rewrite mem_cons in Hbody. apply orb_false_elim in Hbody as [Hc Hbody].
    rewrite !StrFacts.app_cons. cbn [split_keepends].
    rewrite Ascii.eqb_sym, Hc. by rewrite IH.
Qed.

Lemma mem_lines_text (c : ascii) (toks : list string) :
  c <> LF -> Forall (fun tok => mem c tok = false) toks -> mem c (lines_text toks) = false.
Proof.
  intros Hc. induction 1 as [|tok toks Htok _ IH]; [done|].
  cbn [lines_text]. rewrite !mem_app, Htok, IH. unfold NL.
  rewrite mem_cons. by apply Ascii.eqb_neq in Hc as ->.
Qed.

Lemma readlines_lines_text (toks : list string) :
  Forall (fun tok => mem LF tok = false) toks ->
  Forall (fun tok => mem CR tok = false) toks ->
  readlines (lines_text toks) = (fun tok => tok +:+ NL) <$> toks.
Proof.
  intros HLF HCR. unfold readlines.
  rewrite universal_newlines_id by (by apply mem_lines_text).
  clear HCR. induction HLF as [|tok toks Htok _ IH]; [done|].
  cbn [lines_text]. rewrite split_keepends_cons_line by done. by rewrite fmap_cons, IH.
Qed.

Lemma entry_enumerate_lines (toks : list string) (start : Z) :
  Forall (fun tok => mem LF tok = false) toks ->
  entry <$> enumerate_from start ((fun tok => tok +:+ NL) <$> toks)
  = (fun it : Z * string => (it.2, it.1)) <$> enumerate_from start toks.
Proof.
  intros HLF. revert start. induction HLF as [|tok toks Htok _ IH]; intros start; [done|].
  rewrite fmap_cons. cbn [enumerate_from]. rewrite !fmap_cons, IH.
  unfold entry at 1. simpl fst. simpl snd. by rewrite rstrip_line.
Qed.

Lemma vocab_of_lines_numbered (toks : list string) :
  NoDup toks -> Forall (fun tok => mem LF tok = false) toks ->
  vocab_of_lines ((fun tok => tok +:+ NL) <$> toks) = numbered toks.
Proof.
  intros Hnd HLF. rewrite vocab_of_lines_distinct.
  - by apply entry_enumerate_lines.
  - rewrite <- list_fmap_compose.
    replace ((rstrip NL ∘ (fun tok => tok +:+ NL)) <$> toks) with toks; [done|].
    clear Hnd. induction HLF as [|tok toks Htok _ IH]; [done|].
    rewrite fmap_cons, <- IH. simpl. by rewrite rstrip_line.
Qed.

Lemma entry_enumerate_values (tokens : list string) (start : Z) :
  (entry <$> enumerate_from start tokens).*2 = seqZ start (Z.of_nat (length tokens)).
Proof.
  revert start. induction tokens as [|token tokens IH]; intros start; [done|].
  cbn [enumerate_from]. rewrite !fmap_cons, IH, (seqZ_cons start) by (simpl; lia).
  simpl snd. f_equal. f_equal; simpl; lia.
Qed.

Lemma seqZ_Sorted (l : list (string * Z)) (start : Z) :
  l.*2 = seqZ start (Z.of_nat (length l)) -> Sorted by_value l.
Proof.
  revert start. induction l as [|[k v] l IH]; intros start; [constructor|].
  rewrite fmap_cons, seqZ_cons by (simpl; lia). intros [= Hv Hl].
  replace (Z.pred (Z.of_nat (S (length l)))) with (Z.of_nat (length l)) in Hl by lia.
  constructor; [by eapply IH|]. destruct l as [|[k' v'] l]; constructor.
  rewrite fmap_cons, seqZ_cons in Hl by (simpl; lia). injection Hl as Hv' _.
  unfold by_value. simpl in *. lia.
Qed.

Lemma last_line_last (tokens : list string) (token : string) :
  last_line (rstrip NL token) (tokens ++ [token]) = Some (length tokens).
Proof.
  induction tokens as [|token' tokens IH]; simpl.
  - by rewrite decide_True.
  - by rewrite IH.
Qed.

Lemma consecutive_iff_distinct (tokens : list string) :
  (sorted_by_value (items (vocab_of_lines tokens))).*2
  = seqZ 0 (Z.of_nat (size (vocab_of_lines tokens)))
  <-> NoDup (rstrip NL <$> tokens).
Proof.
  split.
  - intros Hseq.
    assert (length tokens <= size (vocab_of_lines tokens))%nat as Hle.
    { destruct tokens as [|token0 tokens0] using rev_ind; [simpl; lia|]. clear IHtokens0.
      pose proof (vocab_of_lines_last_line (tokens0 ++ [token0]) (rstrip NL token0)) as Hget.
      rewrite last_line_last in Hget. apply get_Some_elem_of in Hget.
      assert (Z.of_nat (length tokens0)
              ∈ (sorted_by_value (items (vocab_of_lines (tokens0 ++ [token0])))).*2) as Hin.
      { rewrite sorted_by_value_Permutation. apply list_elem_of_fmap.
        by exists (rstrip NL token0, Z.of_nat (length tokens0)). }
      rewrite Hseq in Hin. apply elem_of_seqZ in Hin. rewrite length_app. simpl. lia. }
    apply (length_first_seen []). unfold size in Hle.
    pose proof (f_equal length (keys_vocab_of_lines tokens)) as Hkeys.
    unfold keys in Hkeys. rewrite !length_fmap in Hkeys.
    pose proof (proj1 (length_first_seen [] (rstrip NL <$> tokens))) as Hle'.
    rewrite length_fmap in *. lia.
  - intros Hnd. rewrite vocab_of_lines_distinct by done. unfold items, size, enumerate.
    pose proof (entry_enumerate_values tokens 0) as Hv.
    assert (length (entry <$> enumerate_from 0 tokens) = length tokens) as Hlen.
    { by rewrite <- (length_fmap snd), Hv, length_seqZ, Nat2Z.id. }
    rewrite Hlen. rewrite sorted_by_value_id; [done|].
    apply (seqZ_Sorted _ 0). by rewrite Hlen.
Qed.

Lemma entry_enumerate_keys (tokens : list string) (start : Z) :
  (entry <$> enumerate_from start tokens).*1 = rstrip NL <$> tokens.
Proof.
  revert start. induction tokens as [|token tokens IH]; intros start; [done|].
  cbn [enumerate_from]. by rewrite !fmap_cons, IH.
Qed.

Lemma numbered_stripped (tokens : list string) (start : Z) :
  (fun it : Z * string => (it.2, it.1)) <$> enumerate_from start (rstrip NL <$> tokens)
  = entry <$> enumerate_from start tokens.
Proof.
  revert start. induction tokens as [|token tokens IH]; intros start; [done|].
  rewrite fmap_cons. cbn [enumerate_from]. by rewrite !fmap_cons, IH.
Qed.

Lemma numbered_values (toks : list string) (start : Z) :
  ((fun it : Z * string => (it.2, it.1)) <$> enumerate_from start toks).*2
  = seqZ start (Z.of_nat (length toks)).
Proof.
  revert start. induction toks as [|tok toks IH]; intros start; [done|].
  cbn [enumerate_from]. rewrite !fmap_cons, IH, (seqZ_cons start) by (simpl; lia).
  simpl snd. f_equal. f_equal; simpl; lia.
Qed.

Lemma length_numbered (toks : list string) : length (numbered toks) = length toks.
Proof.
  unfold numbered, enumerate. by rewrite <- (length_fmap snd), numbered_values,
    length_seqZ, Nat2Z.id.
Qed.

(** What [load_vocab] reads from the file a constructed tokenizer saved. *)
Lemma load_saved {fs : filesystem} {super_ : BertTokenizer} {vocab_file : string}
    {self : SmilesTokenizer.t} {vocab_path : string} {os : os_state}
    {file : string} {os' : os_state} :
  __init__ fs super_ vocab_file = inr self ->
  save_vocabulary self vocab_path os = inr (file, os') ->
  load_vocab (os_files os') file
  = inr (numbered (sorted_by_value (items (vocab self))).*1).
Proof.
  intros (content & _ & Hvocab & _)%init_inr (_ & Hfile & _)%save_vocabulary_inr.
  unfold load_vocab. rewrite Hfile.
  assert ((sorted_by_value (items (vocab self))).*1 ≡ₚ keys (vocab self)) as Hperm.
  { unfold keys, items. by rewrite sorted_by_value_Permutation. }
  assert (Forall (fun tok => mem LF tok = false /\ mem CR tok = false)
                 (sorted_by_value (items (vocab self))).*1) as Hclean.
  { rewrite Hperm, Hvocab, keys_vocab_of_lines. apply Forall_forall.
    intros tok [Htok _]%elem_of_first_seen.
    apply list_elem_of_fmap in Htok as (l & -> & Hl). by apply (readlines_stripped content). }
  apply Forall_and in Hclean as [HLF HCR].
  rewrite readlines_lines_text by done. f_equal.
  apply vocab_of_lines_numbered; [|done].
  rewrite Hperm, Hvocab. apply NoDup_keys_vocab_of_lines.
Qed.

(** X19: a constructed tokenizer saves a file that [load_vocab] reads back
    as the same tokens, numbered from 0 in the order of their ids. *)
Theorem save_then_load (fs : filesystem) (super_ : BertTokenizer) (vocab_file : string)
    (self : SmilesTokenizer.t) (vocab_path : string) (os : os_state)
    (file : string) (os' : os_state) :
  __init__ fs super_ vocab_file = inr self ->
  save_vocabulary self vocab_path os = inr (file, os') ->
  exists es,
    es ≡ₚ items (vocab self)
    /\ Sorted by_value es
    /\ load_vocab (os_files os') file = inr (numbered es.*1)
    /\ NoDup es.*1
    /\ size (numbered es.*1) = vocab_size self.
Proof.
  intros Hinit Hsave. exists (sorted_by_value (items (vocab self))).
  split; [apply sorted_by_value_Permutation|].
  split; [apply sorted_by_value_Sorted|].
  split; [by apply (load_saved Hinit Hsave)|].
  apply init_inr in Hinit as (content & _ & Hvocab & _). split.
  - rewrite sorted_by_value_Permutation. unfold items. rewrite Hvocab.
    apply NoDup_keys_vocab_of_lines.
  - unfold size, vocab_size, size. rewrite length_numbered, length_fmap.
    apply Permutation_length, sorted_by_value_Permutation.
Qed.

Lemma save_then_load_witness :
  __init__ example_fs example_super "vocab.txt" = inr example_self
  /\ save_vocabulary example_self "out" example_os
     = inr ("out/vocab.txt", os_after_save example_self "out" example_os)
  /\ exists es,
       es ≡ₚ items (vocab example_self)
       /\ Sorted by_value es
       /\ load_vocab (os_files (os_after_save example_self "out" example_os))
                     "out/vocab.txt"
          = inr (numbered es.*1)
       /\ NoDup es.*1
       /\ size (numbered es.*1) = vocab_size example_self.
Proof.
  split; [vm_compute; reflexivity|]. split; [reflexivity|].
  apply (save_then_load example_fs example_super "vocab.txt" example_self "out" example_os);
    [vm_compute|]; reflexivity.
Defined.

(** X20: for a constructed tokenizer, saving logs no warning exactly when no
    two lines of its vocabulary file read the same, and exactly then
    [load_vocab] reads the saved file back as the vocabulary itself. *)
Theorem save_exact_iff_distinct_lines (fs : filesystem) (super_ : BertTokenizer)
    (vocab_file content : string) (self : SmilesTokenizer.t) (vocab_path : string)
    (os : os_state) (file : string) (os' : os_state) :
  fs vocab_file = Some content ->
  __init__ fs super_ vocab_file = inr self ->
  save_vocabulary self vocab_path os = inr (file, os') ->
  (os_log os' = os_log os <-> NoDup (rstrip NL <$> readlines content))
  /\ (load_vocab (os_files os') file = inr (vocab self)
      <-> NoDup (rstrip NL <$> readlines content)).
Proof.
  intros Hcontent Hinit Hsave. rewrite (load_saved Hinit Hsave).
  apply init_inr in Hinit as (content' & Hcontent' & Hvocab & _).
  assert (content' = content) as -> by congruence.
  apply save_vocabulary_inr in Hsave as (_ & _ & ->).
  rewrite <- consecutive_iff_distinct, <- Hvocab. split.
  - destruct (save_fold_log file (sorted_by_value (items (vocab self))) 0 "" (os_log os))
      as (extra & -> & _ & _ & Hiff).
    rewrite (Permutation_length (sorted_by_value_Permutation _)) in Hiff.
    rewrite <- Hiff. split.
    + intros Hlog. apply (app_inv_head (os_log os)). by rewrite app_nil_r.
    + intros ->. by rewrite app_nil_r.
  - split.
    + intros [= Heq].
      assert ((items (vocab self)).*2 = seqZ 0 (Z.of_nat (size (vocab self)))) as Hseq.
      { unfold items. rewrite <- Heq at 1. unfold numbered, enumerate.
        rewrite numbered_values, length_fmap.
        by rewrite (Permutation_length (sorted_by_value_Permutation _)). }
      rewrite sorted_by_value_id; [done|]. by apply (seqZ_Sorted _ 0).
    + rewrite Hvocab. intros Hnd%consecutive_iff_distinct. f_equal.
      rewrite vocab_of_lines_distinct by done. unfold items, enumerate.
      rewrite sorted_by_value_id.
      * rewrite entry_enumerate_keys. unfold numbered, enumerate. apply numbered_stripped.
      * apply (seqZ_Sorted _ 0). rewrite entry_enumerate_values.
        by rewrite <- (length_fmap snd _), entry_enumerate_values, length_seqZ, Nat2Z.id.
Qed.

Lemma save_exact_iff_distinct_lines_witness :
  example_fs "vocab.txt" = Some example_file
  /\ __init__ example_fs example_super "vocab.txt" = inr example_self
  /\ save_vocabulary example_self "out" example_os
     = inr ("out/vocab.txt", os_after_save example_self "out" example_os)
  /\ (os_log (os_after_save example_self "out" example_os) = os_log example_os
      <-> NoDup (rstrip NL <$> readlines example_file))
  /\ (load_vocab (os_files (os_after_save example_self "out" example_os)) "out/vocab.txt"
      = inr (vocab example_self)
      <-> NoDup (rstrip NL <$> readlines example_file)).
Proof.
  split; [reflexivity|]. split; [vm_compute; reflexivity|]. split; [reflexivity|].
  apply (save_exact_iff_distinct_lines example_fs example_super "vocab.txt" example_file
           example_self "out" example_os);
    [reflexivity | vm_compute; reflexivity | reflexivity].
Defined.

End saving.

(** ** Word pieces put together *)

Section word_pieces.
Import SmilesTokenizer.

Lemma isspace_space : isspace " " = true.
Proof. reflexivity. Qed.

Lemma no_space_cons (c : ascii) (s : string) :
  no_space (String c s) = true <-> isspace c = false /\ no_space s = true.
Proof.
  unfold no_space. cbn [all_of]. rewrite andb_true_iff, negb_true_iff. done.
Qed.

Lemma no_space_head (c : ascii) (s : string) :
  no_space (String c s) = true -> Ascii.eqb " " c = false.
Proof.
  intros [Hc _]%no_space_cons. destruct (Ascii.eqb_spec " " c) as [<-|]; [|done].
  by rewrite isspace_space in Hc.
Qed.

Lemma join_space (tok : string) (toks : list string) :
  join " " (tok :: toks) = tok +:+ join "" ((fun t => " " +:+ t) <$> toks).
Proof.
  revert tok. induction toks as [|tok' toks IH]; intros tok.
  - by rewrite StrFacts.app_nil_r.
  - change (join " " (tok :: tok' :: toks)) with (tok +:+ " " +:+ join " " (tok' :: toks)).
    by rewrite IH, fmap_cons, ReFacts.join_empty_cons, StrFacts.app_assoc.
Qed.

Lemma removed_no_space (tok rest out : string) :
  no_space tok = true ->
  removed " ##" rest out -> removed " ##" (tok +:+ rest) (tok +:+ out).
Proof.
  intros Htok Hrest. induction tok as [|c tok IH]; [done|].
  pose proof (no_space_head _ _ Htok) as Hc. apply no_space_cons in Htok as [_ Htok].
  rewrite !StrFacts.app_cons. apply removed_keep; [|by apply IH].
  cbn [startswith]. by rewrite Hc.
Qed.

Lemma startswith_mark_app (tok rest : string) :
  tok <> "" -> (rest = "" \/ exists rest', rest = String " " rest') ->
  startswith "##" (tok +:+ rest) = startswith "##" tok.
Proof.
  intros Hne Hrest. destruct tok as [|a [|b tok]]; [done | | done].
  rewrite StrFacts.app_cons, StrFacts.app_nil_l. cbn [startswith].
  destruct (Ascii.eqb "#" a); [|done].
  by destruct Hrest as [-> | [rest' ->]].
Qed.

Lemma removed_glued (toks : list string) :
  Forall (fun t => t <> "" /\ no_space t = true) toks ->
  removed " ##" (join "" ((fun t => " " +:+ t) <$> toks)) (join "" (glued <$> toks)).
Proof.
  induction 1 as [|tok toks [Hne Htok] _ IH]; [constructor|].
  rewrite !fmap_cons, !ReFacts.join_empty_cons. unfold glued at 1.
  destruct (startswith "##" tok) eqn:Hmark.
  - apply StrFacts.startswith_inv in Hmark as [t' ->].
    change (drop 2 ("##" +:+ t')) with t'.
    change (" " +:+ "##" +:+ t') with (" ##" +:+ t'). rewrite StrFacts.app_assoc.
    apply removed_hit. apply removed_no_space; [|done].
    by apply no_space_cons in Htok as [_ [_ Htok]%no_space_cons].
  - change ((" " +:+ tok) +:+ ?r) with (String " " (tok +:+ r)).
    change ((" " +:+ tok) +:+ ?r) with (String " " (tok +:+ r)).
    apply removed_keep; [|by apply removed_no_space].
    assert (startswith "##" (tok +:+ join "" ((fun t => " " +:+ t) <$> toks)) = false)
      as Hmark'.
    { rewrite startswith_mark_app; [done | done |].
      destruct toks as [|tok' toks']; [by left|]. right.
      rewrite fmap_cons, ReFacts.join_empty_cons. by eexists. }
    revert Hmark'. generalize (tok +:+ join "" ((fun t => " " +:+ t) <$> toks)).
    intros s Hs. cbn [startswith]. by rewrite Ascii.eqb_refl.
Qed.

Lemma rstrip_by_no_space (s : string) : no_space s = true -> rstrip_by isspace s = s.
Proof.
  induction s as [|c s IH]; [done|]. intros [Hc Hs]%no_space_cons.
  cbn [rstrip_by]. rewrite IH by done. destruct s; [by rewrite Hc | done].
Qed.

Lemma rstrip_by_keeps (a b : string) :
  b <> "" -> rstrip_by isspace b = b -> rstrip_by isspace (a +:+ b) = a +:+ b.
Proof.
  intros Hne Hb. induction a as [|c a IH]; [done|].
  rewrite StrFacts.app_cons. cbn [rstrip_by]. rewrite IH.
  destruct (a +:+ b) eqn:Hab; [|done]. by destruct a, b.
Qed.

Lemma rstrip_by_glued (acc : string) (toks : list string) :
  acc <> "" -> rstrip_by isspace acc = acc ->
  Forall (fun t => t <> "" /\ no_space t = true) toks ->
  rstrip_by isspace (acc +:+ join "" (glued <$> toks)) = acc +:+ join "" (glued <$> toks).
Proof.
  intros Hne Hacc Htoks. revert acc Hne Hacc.
  induction Htoks as [|tok toks [Htok Hsp] _ IH]; intros acc Hne Hacc.
  - by rewrite StrFacts.app_nil_r.
  - rewrite fmap_cons, ReFacts.join_empty_cons, <- StrFacts.app_assoc. apply IH.
    + by destruct acc.
    + unfold glued. destruct (startswith "##" tok) eqn:Hmark.
      * apply StrFacts.startswith_inv in Hmark as [t' ->].
        change (drop 2 ("##" +:+ t')) with t'.
        apply no_space_cons in Hsp as [_ [_ Hsp]%no_space_cons].
        destruct t' as [|c t']; [by rewrite StrFacts.app_nil_r|].
        apply rstrip_by_keeps; [done | by apply rstrip_by_no_space].
      * rewrite <- StrFacts.app_assoc.
        apply rstrip_by_keeps; [done | by apply rstrip_by_no_space].
Qed.

(** X21: on tokens that are not empty and hold no whitespace,
    [convert_tokens_to_string] gives the first token followed by the other
    tokens in their order, each one after one space, or, where it starts
    with [##], without the mark and without a space. *)
Theorem convert_tokens_to_string_glues (self : SmilesTokenizer.t)
    (tok : string) (toks : list string) :
  Forall (fun t => t <> "" /\ no_space t = true) (tok :: toks) ->
  convert_tokens_to_string self (tok :: toks) = tok +:+ join "" (glued <$> toks).
Proof.
  intros [[Hne Htok] Htoks]%Forall_cons. unfold convert_tokens_to_string.
  assert (replace " ##" "" (join " " (tok :: toks)) = tok +:+ join "" (glued <$> toks))
    as ->.
  { apply (removed_fun " ##" (join " " (tok :: toks))); [done | by apply replace_removed |].
    rewrite join_space. apply removed_no_space; [done|]. by apply removed_glued. }
  unfold strip. destruct tok as [|c tok]; [done|].
  pose proof Htok as [Hc _]%no_space_cons.
  rewrite StrFacts.app_cons. cbn [lstrip_by]. rewrite Hc, <- StrFacts.app_cons.
  apply rstrip_by_glued; [done | by apply rstrip_by_no_space | done].
Qed.

Lemma convert_tokens_to_string_glues_witness :
  Forall (fun t => t <> "" /\ no_space t = true) ["Cl"; "##C"; "(="; "O"; "##)"]
  /\ convert_tokens_to_string example_self ["Cl"; "##C"; "(="; "O"; "##)"] = "ClC (= O)".
Proof.
  assert (Forall (fun t => t <> "" /\ no_space t = true) ["Cl"; "##C"; "(="; "O"; "##)"])
    as Hall by (repeat constructor; done).
  split; [exact Hall|].
  exact (convert_tokens_to_string_glues example_self "Cl" ["##C"; "(="; "O"; "##)"] Hall).
Defined.

End word_pieces.

(** ** When the constructor returns *)

Section construction.
Import SmilesTokenizer OrderedDict OrderedDictFacts.

Lemma unused_indices_stripped (tokens : list string) :
  unused_indices (vocab_of_lines tokens) <> [] <->
  Exists (fun tok => startswith "[unused" tok = true) (rstrip NL <$> tokens).
Proof.
  rewrite Exists_exists. split.
  - destruct (unused_indices (vocab_of_lines tokens)) as [|i l] eqn:Hidx; [done|].
    intros _. assert (i ∈ unused_indices (vocab_of_lines tokens)) as Hi
      by (rewrite Hidx; left).
    apply elem_of_unused_indices in Hi as (j & tok & _ & Hj & Htok).
    exists tok. split; [|done]. apply list_elem_of_lookup_2 in Hj.
    rewrite keys_vocab_of_lines in Hj. by apply elem_of_first_seen in Hj as [? _].
  - intros (tok & Hin & Htok) Hnil.
    pose proof (proj1 (unused_indices_nil _) Hnil tok) as Hno.
    rewrite keys_vocab_of_lines, Htok in Hno. discriminate Hno.
    apply elem_of_first_seen. split; [done | apply not_elem_of_nil].
Qed.

(** X22: where the vocabulary file exists and [super().__init__] has
    returned, the constructor returns a tokenizer exactly when one of the
    lines of the file starts with "[unused"; where none does it fails with
    the [ValueError] of [max] on an empty list, and it fails in no other
    way. *)
Theorem init_succeeds_iff (fs : filesystem) (super_ : BertTokenizer)
    (vocab_file content : string) :
  fs vocab_file = Some content ->
  ((exists self, __init__ fs super_ vocab_file = inr self)
   <-> Exists (fun tok => startswith "[unused" tok = true)
              (rstrip NL <$> readlines content))
  /\ (forall e, __init__ fs super_ vocab_file = inl e ->
                max [] = inl e
                /\ Forall (fun tok => startswith "[unused" tok = false)
                          (rstrip NL <$> readlines content)).
Proof.
  intros Hfs. unfold __init__, isfile, load_vocab.
  rewrite BasicSmilesTokenizer_default, Hfs.
  rewrite bool_decide_eq_true_2 by eauto. cbn [negb].
  pose proof (unused_indices_stripped (readlines content)) as Hiff.
  destruct (unused_indices (vocab_of_lines (readlines content))) as [|i l].
  - split.
    + split; [by intros [self Hself]|]. intros Hex. by apply Hiff in Hex.
    + intros e [= <-]. split; [done|]. apply Forall_forall. intros tok Hin.
      destruct (startswith "[unused" tok) eqn:Htok; [|done].
      exfalso. apply (proj2 Hiff); [|done]. apply Exists_exists. eauto.
  - split; [|done]. split; [|by eexists]. intros _. by apply Hiff.
Qed.

Lemma init_succeeds_iff_witness :
  example_fs "vocab.txt" = Some example_file
  /\ exists self, __init__ example_fs example_super "vocab.txt" = inr self.
Proof.
  split; [reflexivity|].
  apply (proj2 (proj1 (init_succeeds_iff example_fs example_super "vocab.txt"
                         example_file eq_refl))).
  assert (rstrip NL <$> readlines example_file = example_lines) as ->
    by (vm_compute; reflexivity).
  apply Exists_cons_tl, Exists_cons_hd. reflexivity.
Defined.

End construction.
